(** * clime-slack: escaped mentions, command context and response recognition

    A shallow embedding of [src/slack.ts]: the classes [SlackUser],
    [SlackChannel] and [SlackCommandContext] and the function
    [isSlackCommandResponse], together with the part of the ECMAScript
    run time they rely on (values, property reads, [Object.assign],
    [typeof], [&&], [||], template literals and the regular expressions
    behind [String.prototype.match]). *)

From Stdlib Require Import Floats.SpecFloat Strings.Ascii.
From stdpp Require Import gmap strings list fin_maps pretty.

Set Default Proof Using "Type".

(** ** Strings

    An ECMAScript string is a sequence of UTF-16 code units.  A code unit
    is kept as its number; nothing in the source depends on the 16-bit
    bound. *)

Abbreviation code_unit := N.
Abbreviation jstring := (list code_unit).

(** [js "..."] is the string literal with the given (ASCII) spelling. *)
Definition js (s : string) : jstring :=
  N_of_ascii <$> String.list_ascii_of_string s.

(** ** Values *)

(** The constructor function an object was created by; it decides what
    [typeof] answers and which methods the object inherits. *)
Inductive class_tag :=
  | ObjectClass
  | FunctionClass
  | SlackUserClass
  | SlackChannelClass
  | SlackCommandContextClass.

#[global] Instance class_tag_eq_dec : EqDecision class_tag.
Proof. solve_decision. Defined.

(** Plain data: primitives, arrays of values and objects with own
    enumerable data properties under string keys.  [VObject] is an object
    that inherits from the prototype of its class, [VExtends] one whose
    prototype is the object [proto] (or [null]), as an assignment to
    [__proto__] leaves it.  Of the standard prototypes only the accessor
    [__proto__] of [Object.prototype] is modelled, and only its setter
    (see [set]); their other properties, proxies, symbol keys and
    accessors of the objects themselves are not part of the model. *)
#[warnings="-register-all"]
Inductive value :=
  | VUndefined
  | VNull
  | VBoolean (b : bool)
  | VNumber (x : spec_float)
  | VBigInt (z : Z)
  | VString (s : jstring)
  | VSymbol (description : jstring)
  | VArray (items : list value)
  | VObject (cls : class_tag) (props : gmap jstring value)
  | VExtends (proto : value) (props : gmap jstring value).

(** ** Abrupt completion *)

Inductive error :=
  | TypeError
  | ExpectedError (message : jstring).

Inductive result (A : Type) :=
  | Ok (a : A)
  | Throw (e : error).
Arguments Ok {A} a.
Arguments Throw {A} e.

#[global] Instance result_ret : MRet result := λ A a, Ok a.
#[global] Instance result_bind : MBind result := λ A B k r,
  match r with
  | Ok a => k a
  | Throw e => Throw e
  end.

(** ** Operations of the language *)

(** [ToBoolean]: the falsy values are [undefined], [null], [false], the
    zeros, [NaN], [0n] and the empty string. *)
Definition ToBoolean (v : value) : bool :=
  match v with
  | VUndefined | VNull => false
  | VBoolean b => b
  | VNumber (S754_zero _) | VNumber S754_nan => false
  | VNumber _ => true
  | VBigInt z => negb (Z.eqb z 0)
  | VString s => negb (bool_decide (s = []))
  | VSymbol _ | VArray _ | VObject _ _ | VExtends _ _ => true
  end.

(** The [typeof] operator. *)
Definition typeof (v : value) : jstring :=
  match v with
  | VUndefined => js "undefined"
  | VNull => js "object"
  | VBoolean _ => js "boolean"
  | VNumber _ => js "number"
  | VBigInt _ => js "bigint"
  | VString _ => js "string"
  | VSymbol _ => js "symbol"
  | VArray _ => js "object"
  | VObject FunctionClass _ => js "function"
  | VObject _ _ => js "object"
  | VExtends _ _ => js "object"
  end.

(** [a === b] on strings. *)
Definition strict_equal_string (a b : jstring) : value :=
  VBoolean (bool_decide (a = b)).

Definition Array_isArray (v : value) : value :=
  match v with
  | VArray _ => VBoolean true
  | _ => VBoolean false
  end.

(** [a && b] and [a || b] yield one of their operands; the right one is
    evaluated only when the left one does not decide. *)
Definition js_and (a : value) (b : result value) : result value :=
  if ToBoolean a then b else Ok a.

Definition js_or (a : value) (b : result value) : result value :=
  if ToBoolean a then Ok a else b.

(** The property key of an array index. *)
Definition key_of_index (i : nat) : jstring := js (pretty i).

Definition number_of_nat (n : nat) : spec_float :=
  match n with
  | O => S754_zero false
  | S _ => S754_finite false (Pos.of_nat n) 0
  end.

(** The element stored under key [k], the first element having index [i]. *)
Fixpoint element_at {A} (i : nat) (items : list A) (k : jstring) : option A :=
  match items with
  | [] => None
  | x :: items' =>
      if decide (key_of_index i = k) then Some x
      else element_at (S i) items' k
  end.

(** The value found under key [k] on [v] or, for an object with a
    prototype put in, along its prototype chain; [undefined] when there
    is none.  The getter of the inherited [__proto__] is not modelled:
    that key is read as any other. *)
Fixpoint lookup_property (v : value) (k : jstring) : value :=
  match v with
  | VString s =>
      if decide (k = js "length") then VNumber (number_of_nat (length s))
      else default VUndefined ((λ c, VString [c]) <$> element_at 0 s k)
  | VArray items =>
      if decide (k = js "length") then VNumber (number_of_nat (length items))
      else default VUndefined (element_at 0 items k)
  | VObject _ props => default VUndefined (props !! k)
  | VExtends proto props =>
      match props !! k with
      | Some x => x
      | None => lookup_property proto k
      end
  | VUndefined | VNull | VBoolean _ | VNumber _ | VBigInt _ | VSymbol _ =>
      VUndefined
  end.

(** Property read [v.k] and [v[k]].  Reading from [undefined] or [null]
    throws; a property that is not there reads as [undefined]. *)
Definition get (v : value) (k : jstring) : result value :=
  match v with
  | VUndefined | VNull => Throw TypeError
  | _ => Ok (lookup_property v k)
  end.

(** The own enumerable properties [Object.assign] copies from a source:
    none for [undefined], [null] and the other primitives except strings,
    whose code units are copied under their indices. *)
Definition own_enumerable (source : value) : gmap jstring value :=
  match source with
  | VObject _ props | VExtends _ props => props
  | VArray items => list_to_map (imap (λ i x, (key_of_index i, x)) items)
  | VString s => list_to_map (imap (λ i c, (key_of_index i, VString [c])) s)
  | _ => ∅
  end.

(** *** Writing a property *)

Definition proto_key : jstring := js "__proto__".

(** The own properties of an ordinary object, and the object with others
    in their place. *)
Definition own_props (v : value) : gmap jstring value :=
  match v with
  | VObject _ props | VExtends _ props => props
  | _ => ∅
  end.

Definition with_own (v : value) (props : gmap jstring value) : value :=
  match v with
  | VObject cls _ => VObject cls props
  | VExtends proto _ => VExtends proto props
  | _ => v
  end.

(** Whether the search for [__proto__] that starts at [v] ends at the
    accessor of [Object.prototype]: it does unless an object on the way
    has a property of that name of its own, or the chain ends in [null]
    before. *)
Fixpoint inherits_proto_accessor (v : value) : bool :=
  match v with
  | VObject _ props => bool_decide (props !! proto_key = None)
  | VExtends proto props =>
      bool_decide (props !! proto_key = None) && inherits_proto_accessor proto
  | VArray _ => true
  | _ => false
  end.

(** What the setter of [__proto__] takes for a prototype: an object or
    [null]. *)
Definition is_prototype_value (x : value) : bool :=
  match x with
  | VNull | VArray _ | VObject _ _ | VExtends _ _ => true
  | _ => false
  end.

(** [target.k = x] ([[Set]]) on an ordinary object.  The key [__proto__],
    when it is found on [Object.prototype], runs the setter there: an
    object or [null] becomes the prototype of the target, anything else is
    dropped.  Every other write makes or updates an own property. *)
Definition set (target : value) (k : jstring) (x : value) : value :=
  match target with
  | VObject _ _ | VExtends _ _ =>
      if bool_decide (k = proto_key) && inherits_proto_accessor target then
        if is_prototype_value x then VExtends x (own_props target)
        else target
      else with_own target (<[k := x]> (own_props target))
  | _ => target
  end.

(** [Object.assign(target, source)] for an ordinary object [target]: every
    own enumerable property of the source is written to the target with
    [set].  (The order of the writes does not matter, see
    [Object_assign_insert].) *)
Definition Object_assign (target source : value) : value :=
  map_fold (λ k x target, set target k x) target (own_enumerable source).

(** ** Regular expressions

    The backtracking semantics of ECMA-262 (22.2.2): a pattern compiles
    to a matcher, which takes the current state and a continuation that
    matches the rest of the pattern.  Only the constructs the source uses
    are kept. *)

Inductive regex :=
  | Empty
  | Char (c : code_unit)                            (* a pattern character *)
  | Class (negated : bool) (members : list code_unit)     (* [...] and [^...] *)
  | AssertStart                                     (* ^ *)
  | AssertEnd                                       (* $ *)
  | Seq (r1 r2 : regex)
  | Group (n : nat) (r : regex)      (* the n-th capturing parentheses *)
  | Plus (r : regex).                               (* greedy + *)

(** A match state: the index reached in the input, the input from that
    index on, and what the capturing parentheses hold. *)
Record MatchState := {
  endIndex : nat;
  rest : jstring;
  captures : list (option jstring);
}.

Definition Continuation := MatchState → option MatchState.

(** The numbers of the capturing parentheses in a pattern, left to right. *)
Fixpoint groups_of (r : regex) : list nat :=
  match r with
  | Seq r1 r2 => groups_of r1 ++ groups_of r2
  | Group n r' => n :: groups_of r'
  | Plus r' => groups_of r'
  | _ => []
  end.

(** CharacterSetMatcher: fail at the end of the input, else test the code
    unit at [endIndex] and step over it. *)
Definition char_set_matcher (accepts : code_unit → bool)
    (x : MatchState) (c : Continuation) : option MatchState :=
  match rest x with
  | [] => None
  | ch :: rest' =>
      if accepts ch
      then c {| endIndex := S (endIndex x); rest := rest';
                captures := captures x |}
      else None
  end.

(** The state [y] with parentheses [n] holding the input between [x] and [y]. *)
Definition capture (n : nat) (x y : MatchState) : MatchState :=
  {| endIndex := endIndex y; rest := rest y;
     captures := <[pred n := Some (take (endIndex y - endIndex x) (rest x))]>
                   (captures y) |}.

(** A repetition forgets what the parentheses inside it held. *)
Definition clear_captures (ns : list nat) (x : MatchState) : MatchState :=
  {| endIndex := endIndex x; rest := rest x;
     captures := foldr (λ n caps, <[pred n := None]> caps) (captures x) ns |}.

(** RepeatMatcher with min = 0 and no max, greedy: one more iteration of
    [m] is preferred to stopping, and an iteration that consumes nothing
    is refused.  Every iteration consumes input, so the input left at the
    start bounds their number ([fuel]). *)
Fixpoint RepeatMatcher (m : MatchState → Continuation → option MatchState)
    (parens : list nat) (c : Continuation) (fuel : nat) (x : MatchState)
    : option MatchState :=
  match fuel with
  | O => c x
  | S fuel' =>
      let d y :=
        if decide (endIndex y = endIndex x) then None
        else RepeatMatcher m parens c fuel' y in
      match m (clear_captures parens x) d with
      | Some z => Some z
      | None => c x
      end
  end.

(** The matcher of a pattern.  [Plus] is a repetition with min = 1: one
    iteration that has to match, then [RepeatMatcher]. *)
Fixpoint matcher (r : regex) (x : MatchState) (c : Continuation)
    : option MatchState :=
  match r with
  | Empty => c x
  | Char ch => char_set_matcher (λ u, bool_decide (u = ch)) x c
  | Class negated members =>
      char_set_matcher (λ u, xorb negated (bool_decide (u ∈ members))) x c
  | AssertStart => if decide (endIndex x = 0) then c x else None
  | AssertEnd => match rest x with [] => c x | _ :: _ => None end
  | Seq r1 r2 => matcher r1 x (λ y, matcher r2 y c)
  | Group n r' => matcher r' x (λ y, c (capture n x y))
  | Plus r' =>
      matcher r' (clear_captures (groups_of r') x)
        (λ y, RepeatMatcher (matcher r') (groups_of r') c (length (rest y)) y)
  end.

(** RegExpBuiltinExec for a pattern without flags: try the start indices
    from [lastIndex] on, in order; the first one at which the pattern
    matches gives the result. *)
Fixpoint scan (r : regex) (lastIndex : nat) (suffix : jstring)
    : option (jstring * MatchState) :=
  let x := {| endIndex := lastIndex; rest := suffix;
              captures := replicate (length (groups_of r)) None |} in
  match matcher r x Some with
  | Some y => Some (take (endIndex y - lastIndex) suffix, y)
  | None =>
      match suffix with
      | [] => None
      | _ :: suffix' => scan r (S lastIndex) suffix'
      end
  end.

(** [text.match(r)] for a pattern without the g flag: [null], or the
    array of the matched substring followed by what each pair of capturing
    parentheses holds ([undefined] when it took no part in the match). *)
Definition String_match (text : jstring) (r : regex) : value :=
  match scan r 0 text with
  | None => VNull
  | Some (matched, y) =>
      VArray (VString matched
              :: ((λ cap, from_option VString VUndefined cap) <$> captures y))
  end.

(** The code unit of an ASCII character. *)
Definition chr (a : ascii) : code_unit := N_of_ascii a.

(** The double quote, as a one-character string. *)
Definition quote : jstring := [34%N].

Infix "⋯" := Seq (at level 60, right associativity).

(** ** The source: src/slack.ts *)

Section slack.

(** [ToString] of a number, a bigint, an array or an object is left to
    the host (number formatting, [ToPrimitive]); the fields the source
    formats are declared as strings. *)
Variable host_ToString : value → result jstring.

Definition ToString (v : value) : result jstring :=
  match v with
  | VUndefined => Ok (js "undefined")
  | VNull => Ok (js "null")
  | VBoolean true => Ok (js "true")
  | VBoolean false => Ok (js "false")
  | VString s => Ok s
  | VSymbol _ => Throw TypeError
  | VNumber _ | VBigInt _ | VArray _ | VObject _ _ | VExtends _ _ =>
      host_ToString v
  end.

(** *** class SlackUser *)

(** [new SlackUser(id, name)] *)
Definition new_SlackUser (id name : value) : value :=
  VObject SlackUserClass {[ js "id" := id; js "name" := name ]}.

(** [`<@${this.id}|${this.name}>`] *)
Definition SlackUser_toString (this : value) : result jstring :=
  id ← get this (js "id");
  id ← ToString id;
  name ← get this (js "name");
  name ← ToString name;
  mret (js "<@" ++ id ++ js "|" ++ name ++ js ">").

(** [/^<@([^|]+)\|([^>]+)>$/] *)
Definition SlackUser_pattern : regex :=
  AssertStart ⋯ Char (chr "<") ⋯ Char (chr "@")
    ⋯ Group 1 (Plus (Class true [chr "|"])) ⋯ Char (chr "|")
    ⋯ Group 2 (Plus (Class true [chr ">"])) ⋯ Char (chr ">") ⋯ AssertEnd.

Definition SlackUser_cast (text : jstring) : result value :=
  let groups := String_match text SlackUser_pattern in
  if negb (ToBoolean groups) then
    Throw (ExpectedError
             (quote ++ text ++ quote ++ js " is not a valid escaped slack user"))
  else
    id ← get groups (key_of_index 1);
    name ← get groups (key_of_index 2);
    mret (new_SlackUser id name).

(** *** class SlackChannel *)

(** [new SlackChannel(id, name)] *)
Definition new_SlackChannel (id name : value) : value :=
  VObject SlackChannelClass {[ js "id" := id; js "name" := name ]}.

(** [`<#${this.id}|${this.name}>`] *)
Definition SlackChannel_toString (this : value) : result jstring :=
  id ← get this (js "id");
  id ← ToString id;
  name ← get this (js "name");
  name ← ToString name;
  mret (js "<#" ++ id ++ js "|" ++ name ++ js ">").

(** [/^<#([^|]+)\|([^>]+)>$/] *)
Definition SlackChannel_pattern : regex :=
  AssertStart ⋯ Char (chr "<") ⋯ Char (chr "#")
    ⋯ Group 1 (Plus (Class true [chr "|"])) ⋯ Char (chr "|")
    ⋯ Group 2 (Plus (Class true [chr ">"])) ⋯ Char (chr ">") ⋯ AssertEnd.

Definition SlackChannel_cast (text : jstring) : result value :=
  let groups := String_match text SlackChannel_pattern in
  if negb (ToBoolean groups) then
    Throw (ExpectedError
             (quote ++ text ++ quote
                ++ js " is not a valid escaped slack channel"))
  else
    id ← get groups (key_of_index 1);
    name ← get groups (key_of_index 2);
    mret (new_SlackChannel id name).

(** *** class SlackCommandContext *)

(** The instance under construction, given by its own properties. *)
Definition instance (this : gmap jstring value) : value :=
  VObject SlackCommandContextClass this.

(** The constructor body after [super(options)] has returned; [this] is
    the instance as the constructor of [Context] left it.  The field
    declarations of the class emit no code. *)
Definition SlackCommandContext_constructor (this contextExtension : value)
    : result value :=
  let this := Object_assign this contextExtension in
  user_id ← get this (js "user_id");
  user_name ← get this (js "user_name");
  let this := set this (js "user") (new_SlackUser user_id user_name) in
  channel_id ← get this (js "channel_id");
  channel_name ← get this (js "channel_name");
  let this := set this (js "channel")
                (new_SlackChannel channel_id channel_name) in
  mret this.

(** [new SlackCommandContext(options, contextExtension)], where
    [super_this] holds the own properties of the instance as
    [super(options)] leaves it. *)
Definition new_SlackCommandContext
    (super_this : gmap jstring value) (contextExtension : value)
    : result value :=
  SlackCommandContext_constructor (instance super_this) contextExtension.

(** *** function isSlackCommandResponse *)

Definition isSlackCommandResponse (object : value) : result value :=
  guard ← js_and object
            (mret (strict_equal_string (typeof object) (js "object")));
  js_and guard
    (text ← get object (js "text");
     js_or (strict_equal_string (typeof text) (js "string"))
       (attachments ← get object (js "attachments");
        mret (Array_isArray attachments))).

End slack.

(** ** The vocabulary of the specification *)

(** The two variants of a mention, one per class of the source. *)
Inductive variant := User | Channel.

Definition sigil (v : variant) : code_unit :=
  match v with User => chr "@" | Channel => chr "#" end.

(** [Mention(variant, id, name)]: an instance of the variant's class. *)
Definition Mention (v : variant) (id name : value) : value :=
  match v with
  | User => new_SlackUser id name
  | Channel => new_SlackChannel id name
  end.

(** [parse(text, variant)]: the [cast] of the variant's class. *)
Definition parse (text : jstring) (v : variant) : result value :=
  match v with
  | User => SlackUser_cast text
  | Channel => SlackChannel_cast text
  end.

(** [encode(mention)]: the [toString] of the variant's class. *)
Definition encode (host : value → result jstring) (m : value) (v : variant)
    : result jstring :=
  match v with
  | User => SlackUser_toString host m
  | Channel => SlackChannel_toString host m
  end.

(** The message of the error [parse] throws. *)
Definition not_valid (text : jstring) (v : variant) : jstring :=
  quote ++ text ++ quote ++ js " is not a valid escaped slack "
    ++ match v with User => js "user" | Channel => js "channel" end.

(** [parse] refuses the text, with the error of the source. *)
Definition rejects (text : jstring) (v : variant) : Prop :=
  parse text v = Throw (ExpectedError (not_valid text v)).

(** [text] is [<], the sigil, a non-empty [id] without [|], [|], a
    non-empty [name] without [>], and [>]; nothing before, nothing after. *)
Definition escaped (sigil : code_unit) (id name text : jstring) : Prop :=
  text = chr "<" :: sigil :: id ++ chr "|" :: name ++ [chr ">"]
  ∧ id ≠ [] ∧ (chr "|" ∉ id) ∧ name ≠ [] ∧ (chr ">" ∉ name).

(** None of the three delimiters of the escaped syntax occurs in [s]. *)
Definition delimiter_free (s : jstring) : Prop :=
  (chr "<" ∉ s) ∧ (chr ">" ∉ s) ∧ (chr "|" ∉ s).

(** The fields the class SlackCommandContext declares besides [user] and
    [channel]. *)
Definition SlackCommandContext_fields : list jstring :=
  js <$> ["token"; "team_id"; "team_domain"; "enterprise_id";
          "enterprise_name"; "channel_id"; "channel_name"; "user_id";
          "user_name"; "command"; "text"; "response_url"; "trigger_id"].

(** What [this.k] reads once [Object.assign] has run. *)
Definition assigned (this : gmap jstring value) (contextExtension : value)
    (k : jstring) : value :=
  lookup_property (Object_assign (instance this) contextExtension) k.

(** The extension puts no prototype in: what it has under [__proto__], if
    anything, is no object and not [null].  A bag of strings is such. *)
Definition keeps_prototype (source : value) : Prop :=
  match own_enumerable source !! proto_key with
  | Some p => is_prototype_value p = false
  | None => True
  end.

(** A non-null value of object kind: an array or an object that is not a
    function. *)
Definition structured (v : value) : Prop :=
  match v with
  | VArray _ | VExtends _ _ => True
  | VObject cls _ => cls ≠ FunctionClass
  | _ => False
  end.

#[global] Instance structured_dec v : Decision (structured v).
Proof. destruct v; apply _. Defined.

(** The shape of a response: a structured value whose [text] is a string
    or whose [attachments] is an array. *)
Definition ResponsePayload_shape (v : value) : Prop :=
  structured v
  ∧ ((∃ s, get v (js "text") = Ok (VString s))
     ∨ (∃ items, get v (js "attachments") = Ok (VArray items))).

(** The caller takes [v] for a response: the result of the recognizer is
    truthy. *)
Definition recognizes (v : value) : Prop :=
  ∃ r, isSlackCommandResponse v = Ok r ∧ ToBoolean r = true.

(** The property of a context that holds the mention of a variant, and the
    two fields the constructor makes it from. *)
Definition mention_key (v : variant) : jstring :=
  match v with User => js "user" | Channel => js "channel" end.

Definition id_key (v : variant) : jstring :=
  match v with User => js "user_id" | Channel => js "channel_id" end.

Definition name_key (v : variant) : jstring :=
  match v with User => js "user_name" | Channel => js "channel_name" end.

(** ** Definitions for the proofs *)

(** The two patterns of the source differ in the sigil only. *)
Definition mention_pattern (sigil : code_unit) : regex :=
  AssertStart ⋯ Char (chr "<") ⋯ Char sigil
    ⋯ Group 1 (Plus (Class true [chr "|"])) ⋯ Char (chr "|")
    ⋯ Group 2 (Plus (Class true [chr ">"])) ⋯ Char (chr ">") ⋯ AssertEnd.

(** The state a match of the whole text starts from and the one it ends in. *)
Definition start_state (text : jstring) : MatchState :=
  {| endIndex := 0; rest := text; captures := [None; None] |}.

Definition final_state (id name text : jstring) : MatchState :=
  {| endIndex := length text; rest := [];
     captures := [Some id; Some name] |}.

(** [y] is further on in the input than [x], or at the same place. *)
Definition follows (x y : MatchState) : Prop :=
  ∃ consumed, rest x = consumed ++ rest y
              ∧ endIndex y = endIndex x + length consumed.

(** A matcher that consults its continuation only on states that follow
    the one it started from. *)
Definition local (m : MatchState → Continuation → option MatchState) : Prop :=
  ∀ x c1 c2, (∀ y, follows x y → c1 y = c2 y) → m x c1 = m x c2.

(** An object with properties that can be written: not an array, not a
    primitive. *)
Definition ordinary (v : value) : Prop :=
  match v with
  | VObject _ _ | VExtends _ _ => True
  | _ => False
  end.

#[global] Instance ordinary_dec v : Decision (ordinary v).
Proof. destruct v; apply _. Defined.

(** A continuation that fails unless the next code unit is [c]. *)
Definition needs (c : code_unit) (k : Continuation) : Prop :=
  ∀ y u tl, rest y = u :: tl → u ≠ c → k y = None.

(** The code units of the decimal digits. *)
Definition is_digit (u : code_unit) : Prop := (48 ≤ u ≤ 57)%N.

(** * Verification *)

(** ** The bound on repetitions

    The fuel of [RepeatMatcher] is no restriction: a matcher hands its
    continuation only states further on in the input, so an iteration that
    moves [endIndex] shortens the input left, and any fuel that is at least
    the input left gives the same result. *)

Lemma follows_refl x : follows x x.
Proof. exists []. by rewrite Nat.add_0_r. Qed.

Lemma follows_trans x y z : follows x y → follows y z → follows x z.
Proof.
  intros (s1 & Hr1 & He1) (s2 & Hr2 & He2). exists (s1 ++ s2).
  rewrite Hr1, Hr2, He2, He1, length_app, <- (assoc_L (++)). split; [done|lia].
Qed.

Lemma follows_clear ns x y : follows (clear_captures ns x) y → follows x y.
Proof. done. Qed.

Lemma follows_capture n x0 x y : follows x y → follows x (capture n x0 y).
Proof. done. Qed.

Lemma follows_shorter x y :
  follows x y → endIndex y ≠ endIndex x → length (rest y) < length (rest x).
Proof.
  intros (s & -> & He) Hne. destruct s as [|u s].
  - cbn in He. lia.
  - rewrite length_app. cbn. lia.
Qed.

Lemma RepeatMatcher_local m ps fuel :
  local m → local (λ x c, RepeatMatcher m ps c fuel x).
Proof.
  intros Hm. induction fuel as [|fuel IH]; intros x c1 c2 Hc.
  - apply Hc, follows_refl.
  - cbn [RepeatMatcher]. rewrite (Hc x (follows_refl x)).
    erewrite Hm; [done|]. intros y Hy. cbn beta.
    case_decide; [done|]. apply IH. intros z Hz. apply Hc.
    eapply follows_trans; [|done]. by apply follows_clear in Hy.
Qed.

Lemma matcher_local r : local (matcher r).
Proof.
  induction r as [|ch|negated members| | |r1 IH1 r2 IH2|n r IH|r IH];
    intros x c1 c2 Hc; cbn [matcher].
  - apply Hc, follows_refl.
  - unfold char_set_matcher. destruct (rest x) as [|u s] eqn:Hx; [done|].
    case_bool_decide; [|done]. apply Hc. exists [u]. cbn. split; [done|lia].
  - unfold char_set_matcher. destruct (rest x) as [|u s] eqn:Hx; [done|].
    destruct (xorb _ _); [|done]. apply Hc. exists [u]. cbn. split; [done|lia].
  - case_decide; [|done]. apply Hc, follows_refl.
  - destruct (rest x); [|done]. apply Hc, follows_refl.
  - apply IH1. intros y Hy. apply IH2. intros z Hz. apply Hc.
    by eapply follows_trans.
  - apply IH. intros y Hy. apply Hc. by apply follows_capture.
  - apply IH. intros y Hy. apply RepeatMatcher_local; [done|].
    intros z Hz. apply Hc. eapply follows_trans; [|done].
    by apply follows_clear in Hy.
Qed.

(** At the end of the input no further iteration is possible. *)
Lemma RepeatMatcher_end m ps c fuel x :
  local m → (∀ x, m x (λ _, None) = None) → rest x = [] →
  RepeatMatcher m ps c fuel x = c x.
Proof.
  intros Hm Hfail Hx. destruct fuel as [|fuel]; [done|].
  cbn [RepeatMatcher]. erewrite Hm; [by rewrite Hfail|].
  intros y Hy. cbn beta. rewrite decide_True; [done|].
  destruct Hy as (s & Hs & ->). cbn in Hs. rewrite Hx in Hs.
  destruct s; [cbn; lia|done].
Qed.

Lemma RepeatMatcher_fails m ps fuel x :
  (∀ x, m x (λ _, None) = None) → local m →
  RepeatMatcher m ps (λ _, None) fuel x = None.
Proof.
  intros Hfail Hm. revert x. induction fuel as [|fuel IH]; intros x; [done|].
  cbn [RepeatMatcher]. erewrite Hm; [by rewrite Hfail|].
  intros y _. cbn beta. case_decide; [done|]. apply IH.
Qed.

Lemma matcher_fails r x : matcher r x (λ _, None) = None.
Proof.
  revert x.
  induction r as [|ch|negated members| | |r1 IH1 r2 IH2|n r IH|r IH];
    intros x; cbn [matcher].
  - done.
  - unfold char_set_matcher. by repeat case_match.
  - unfold char_set_matcher. by repeat case_match.
  - by case_decide.
  - by case_match.
  - erewrite matcher_local; [apply IH1|]. intros y _. apply IH2.
  - apply IH.
  - erewrite matcher_local; [apply IH|]. intros y _.
    apply RepeatMatcher_fails; [done|apply matcher_local].
Qed.

(** Fuel beyond the input left changes nothing. *)
Lemma RepeatMatcher_fuel r ps c fuel : ∀ x,
  length (rest x) ≤ fuel →
  RepeatMatcher (matcher r) ps c (S fuel) x
  = RepeatMatcher (matcher r) ps c fuel x.
Proof.
  induction fuel as [|fuel IH]; intros x Hfuel.
  - assert (rest x = []) by (destruct (rest x); [done|cbn in Hfuel; lia]).
    by rewrite !RepeatMatcher_end by auto using matcher_local, matcher_fails.
  - cbn [RepeatMatcher]. erewrite matcher_local; [done|].
    intros y Hy. cbn beta. case_decide as Hidx; [done|].
    apply follows_clear, follows_shorter in Hy; [|done].
    apply IH. lia.
Qed.

Lemma RepeatMatcher_enough r ps c x fuel :
  length (rest x) ≤ fuel →
  RepeatMatcher (matcher r) ps c fuel x
  = RepeatMatcher (matcher r) ps c (length (rest x)) x.
Proof.
  intros Hfuel. induction Hfuel as [|fuel Hfuel IH]; [done|].
  by rewrite RepeatMatcher_fuel.
Qed.

(** ** The matcher on a run of code units *)

Lemma matcher_seq r1 r2 x c :
  matcher (r1 ⋯ r2) x c = matcher r1 x (λ y, matcher r2 y c).
Proof. reflexivity. Qed.

Lemma matcher_assert_start x c :
  matcher AssertStart x c = if decide (endIndex x = 0) then c x else None.
Proof. reflexivity. Qed.

Lemma matcher_assert_end x c :
  matcher AssertEnd x c = match rest x with [] => c x | _ :: _ => None end.
Proof. reflexivity. Qed.

Lemma matcher_group n r x c :
  matcher (Group n r) x c = matcher r x (λ y, c (capture n x y)).
Proof. reflexivity. Qed.

Lemma matcher_plus r x c :
  matcher (Plus r) x c =
  matcher r (clear_captures (groups_of r) x)
    (λ y, RepeatMatcher (matcher r) (groups_of r) c (length (rest y)) y).
Proof. reflexivity. Qed.

Lemma matcher_char ch e s caps c :
  matcher (Char ch) {| endIndex := e; rest := s; captures := caps |} c =
  match s with
  | [] => None
  | u :: s' =>
      if bool_decide (u = ch)
      then c {| endIndex := S e; rest := s'; captures := caps |}
      else None
  end.
Proof. reflexivity. Qed.

Lemma matcher_not_char_accepts c u e s caps k :
  u ≠ c →
  matcher (Class true [c])
    {| endIndex := e; rest := u :: s; captures := caps |} k =
  k {| endIndex := S e; rest := s; captures := caps |}.
Proof.
  intros Hu. cbn. unfold char_set_matcher. cbn.
  rewrite bool_decide_eq_false_2; [done|]. by intros ->%list_elem_of_singleton.
Qed.

Lemma matcher_not_char_rejects c e tail caps k :
  tail = [] ∨ (∃ tl, tail = c :: tl) →
  matcher (Class true [c])
    {| endIndex := e; rest := tail; captures := caps |} k = None.
Proof.
  intros [->|[tl ->]]; cbn; unfold char_set_matcher; cbn; [done|].
  rewrite bool_decide_eq_true_2; [done|]. by apply list_elem_of_singleton.
Qed.

(** Every string splits into its longest prefix without [c] and a rest
    that is empty or starts with [c]. *)
Lemma maximal_run (c : code_unit) (s : jstring) :
  ∃ run tail, s = run ++ tail ∧ (c ∉ run) ∧ (tail = [] ∨ ∃ tl, tail = c :: tl).
Proof.
  induction s as [|u s (run & tail & -> & Hrun & Htail)].
  - exists [], []. split_and!; [done|apply not_elem_of_nil|by left].
  - destruct (decide (u = c)) as [->|Hu].
    + exists [], (c :: run ++ tail).
      split_and!; [done|apply not_elem_of_nil|right; eauto].
    + exists (u :: run), tail. split_and!; [done| |done].
      rewrite not_elem_of_cons. auto.
Qed.

(** On a run of code units other than [c], before a continuation that
    needs [c] next, the greedy repetition of [[^c]] can only stop at the
    end of the run. *)
Lemma RepeatMatcher_run c k run : ∀ tail e caps fuel,
  c ∉ run → tail = [] ∨ (∃ tl, tail = c :: tl) → needs c k →
  length run ≤ fuel →
  RepeatMatcher (matcher (Class true [c])) [] k fuel
    {| endIndex := e; rest := run ++ tail; captures := caps |} =
  k {| endIndex := e + length run; rest := tail; captures := caps |}.
Proof.
  induction run as [|u run IH]; intros tail e caps fuel Hrun Htail Hk Hfuel.
  - rewrite Nat.add_0_r. destruct fuel as [|fuel]; [done|].
    cbn [RepeatMatcher app]; unfold clear_captures;
      cbn [foldr endIndex rest captures].
    by rewrite matcher_not_char_rejects.
  - apply not_elem_of_cons in Hrun as [Hu Hrun].
    destruct fuel as [|fuel]; [cbn in Hfuel; lia|].
    cbn [RepeatMatcher app]; unfold clear_captures;
      cbn [foldr endIndex rest captures].
    rewrite matcher_not_char_accepts by done.
    cbn [endIndex]. rewrite decide_False by lia.
    rewrite IH by (done || cbn in Hfuel; lia).
    cbn [length]. replace (e + S (length run)) with (S e + length run) by lia.
    destruct (k _) eqn:Hend; [done|].
    by eapply Hk.
Qed.

Lemma matcher_plus_run c k run tail e caps :
  c ∉ run → tail = [] ∨ (∃ tl, tail = c :: tl) → needs c k →
  matcher (Plus (Class true [c]))
    {| endIndex := e; rest := run ++ tail; captures := caps |} k =
  match run with
  | [] => None
  | _ :: _ =>
      k {| endIndex := e + length run; rest := tail; captures := caps |}
  end.
Proof.
  intros Hrun Htail Hk.
  rewrite matcher_plus. unfold clear_captures.
  cbn [groups_of foldr endIndex rest captures].
  destruct run as [|u run].
  - by rewrite matcher_not_char_rejects.
  - apply not_elem_of_cons in Hrun as [Hu Hrun]. cbn [app].
    rewrite matcher_not_char_accepts by done. cbn [rest].
    rewrite RepeatMatcher_run by (done || rewrite length_app; lia).
    cbn [length]. by replace (e + S (length run)) with (S e + length run) by lia.
Qed.

Lemma needs_char_after_capture c n x r k :
  needs c (λ y, matcher (Char c ⋯ r) (capture n x y) k).
Proof.
  intros y u tl Hy Hu. rewrite matcher_seq. unfold capture.
  rewrite matcher_char. cbn [rest]. rewrite Hy.
  by rewrite bool_decide_eq_false_2.
Qed.

(** ** The pattern of an escaped mention *)

Lemma escaped_matches sigil id name text :
  escaped sigil id name text →
  matcher (mention_pattern sigil) (start_state text) Some =
  Some (final_state id name text).
Proof.
  intros (-> & Hid & Hbar & Hname & Hgt).
  unfold mention_pattern, start_state, final_state.
  rewrite matcher_seq, matcher_assert_start. cbn [endIndex].
  rewrite decide_True by done.
  rewrite matcher_seq, matcher_char, bool_decide_eq_true_2 by done.
  rewrite matcher_seq, matcher_char, bool_decide_eq_true_2 by done.
  rewrite matcher_seq, matcher_group.
  rewrite matcher_plus_run;
    [|done|right; eauto|apply needs_char_after_capture].
  destruct id as [|i0 id]; [done|]. clear Hid.
  set (id' := i0 :: id) in *.
  rewrite matcher_seq. unfold capture at 1. cbn [endIndex rest captures].
  rewrite matcher_char, bool_decide_eq_true_2 by done.
  rewrite matcher_seq, matcher_group.
  rewrite matcher_plus_run;
    [|done|right; eauto|apply needs_char_after_capture].
  destruct name as [|n0 name]; [done|]. clear Hname.
  set (name' := n0 :: name) in *.
  rewrite matcher_seq. unfold capture at 1. cbn [endIndex rest captures].
  rewrite matcher_char, bool_decide_eq_true_2 by done.
  rewrite matcher_assert_end. cbn [rest]. f_equal. f_equal.
  - cbn [length]. rewrite length_app. cbn [length]. rewrite length_app.
    cbn [length]. lia.
  - replace (2 + length id' - 2) with (length id') by lia.
    replace (S (2 + length id') + length name' - S (2 + length id'))
      with (length name') by lia.
    by rewrite !take_app_length.
Qed.

Lemma matches_escaped sigil text y :
  matcher (mention_pattern sigil) (start_state text) Some = Some y →
  ∃ id name, escaped sigil id name text ∧ y = final_state id name text.
Proof.
  intros Hy. pose proof Hy as Hy0. unfold mention_pattern, start_state in Hy.
  rewrite matcher_seq, matcher_assert_start in Hy. cbn [endIndex] in Hy.
  rewrite decide_True in Hy by done.
  rewrite matcher_seq, matcher_char in Hy.
  destruct text as [|u1 text]; [done|]. case_bool_decide; [subst u1|done].
  rewrite matcher_seq, matcher_char in Hy.
  destruct text as [|u2 text]; [done|]. case_bool_decide; [subst u2|done].
  destruct (maximal_run (chr "|") text) as (id & tl & -> & Hbar & Htl).
  rewrite matcher_seq, matcher_group in Hy.
  rewrite matcher_plus_run in Hy;
    [|done..|apply needs_char_after_capture].
  destruct id as [|i0 id]; [done|]. set (id' := i0 :: id) in *.
  rewrite matcher_seq in Hy. unfold capture at 1 in Hy.
  cbn [endIndex rest captures] in Hy. rewrite matcher_char in Hy.
  destruct Htl as [->|[tl' ->]]; [done|].
  rewrite bool_decide_eq_true_2 in Hy by done.
  destruct (maximal_run (chr ">") tl') as (name & tl & -> & Hgt & Htl).
  rewrite matcher_seq, matcher_group in Hy.
  rewrite matcher_plus_run in Hy;
    [|done..|apply needs_char_after_capture].
  destruct name as [|n0 name]; [done|]. set (name' := n0 :: name) in *.
  rewrite matcher_seq in Hy. unfold capture at 1 in Hy.
  cbn [endIndex rest captures] in Hy. rewrite matcher_char in Hy.
  destruct Htl as [->|[tl' ->]]; [done|].
  rewrite bool_decide_eq_true_2 in Hy by done.
  rewrite matcher_assert_end in Hy. cbn [rest] in Hy.
  destruct tl' as [|? ?]; [|done]. clear Hy.
  assert (escaped sigil id' name'
            (chr "<" :: sigil :: id' ++ chr "|" :: name' ++ [chr ">"]))
    as Hesc by (by split_and!).
  exists id', name'. split; [done|].
  rewrite (escaped_matches _ _ _ _ Hesc) in Hy0. congruence.
Qed.

(** ** [String.prototype.match] on the pattern of a mention *)

Lemma scan_unfold r i s :
  scan r i s =
  match matcher r {| endIndex := i; rest := s;
                     captures := replicate (length (groups_of r)) None |} Some
  with
  | Some y => Some (take (endIndex y - i) s, y)
  | None => match s with [] => None | _ :: s' => scan r (S i) s' end
  end.
Proof. by destruct s. Qed.

(** The pattern starts with [^]: it matches at index 0 or nowhere. *)
Lemma scan_mention_later sigil s : ∀ i,
  i ≠ 0 → scan (mention_pattern sigil) i s = None.
Proof.
  induction s as [|u s IH]; intros i Hi; rewrite scan_unfold;
    unfold mention_pattern at 1;
    rewrite matcher_seq, matcher_assert_start; cbn [endIndex];
    rewrite decide_False by done; [done|].
  apply IH. lia.
Qed.

Lemma String_match_escaped sigil id name text :
  escaped sigil id name text →
  String_match text (mention_pattern sigil) =
  VArray [VString text; VString id; VString name].
Proof.
  intros Hesc. unfold String_match. rewrite scan_unfold.
  change (matcher _ _ Some)
    with (matcher (mention_pattern sigil) (start_state text) Some).
  rewrite (escaped_matches _ _ _ _ Hesc). cbn.
  by rewrite Nat.sub_0_r, firstn_all.
Qed.

Lemma String_match_not_escaped sigil text :
  (∀ id name, ¬ escaped sigil id name text) →
  String_match text (mention_pattern sigil) = VNull.
Proof.
  intros Hno. unfold String_match. rewrite scan_unfold.
  change (matcher _ _ Some)
    with (matcher (mention_pattern sigil) (start_state text) Some).
  destruct (matcher _ _ Some) as [y|] eqn:Hy.
  - apply matches_escaped in Hy as (id & name & Hesc & _).
    by destruct (Hno id name).
  - destruct text as [|u text]; [done|].
    by rewrite scan_mention_later.
Qed.

(** Whether a text has the escaped form can be decided: run the matcher. *)
Lemma escaped_or_not sigil text :
  (∃ id name, escaped sigil id name text)
  ∨ (∀ id name, ¬ escaped sigil id name text).
Proof.
  destruct (matcher (mention_pattern sigil) (start_state text) Some)
    as [y|] eqn:Hy.
  - left. apply matches_escaped in Hy as (id & name & Hesc & _). eauto.
  - right. intros id name Hesc.
    by rewrite (escaped_matches _ _ _ _ Hesc) in Hy.
Qed.

(** The segments of an escaped text are determined by the text. *)
Lemma escaped_unique sigil id name id' name' text :
  escaped sigil id name text → escaped sigil id' name' text →
  id = id' ∧ name = name'.
Proof.
  intros H1%escaped_matches H2%escaped_matches.
  rewrite H1 in H2. by injection H2.
Qed.

Lemma get_groups_1 matched id name :
  get (VArray [matched; id; name]) (key_of_index 1) = Ok id.
Proof. reflexivity. Qed.

Lemma get_groups_2 matched id name :
  get (VArray [matched; id; name]) (key_of_index 2) = Ok name.
Proof. reflexivity. Qed.

Lemma parse_escaped v id name text :
  escaped (sigil v) id name text →
  parse text v = Ok (Mention v (VString id) (VString name)).
Proof.
  intros Hesc. destruct v; unfold parse, SlackUser_cast, SlackChannel_cast.
  - change SlackUser_pattern with (mention_pattern (sigil User)).
    rewrite (String_match_escaped _ _ _ _ Hesc).
    cbn [ToBoolean negb]. by rewrite get_groups_1, get_groups_2.
  - change SlackChannel_pattern with (mention_pattern (sigil Channel)).
    rewrite (String_match_escaped _ _ _ _ Hesc).
    cbn [ToBoolean negb]. by rewrite get_groups_1, get_groups_2.
Qed.

Lemma parse_not_escaped v text :
  (∀ id name, ¬ escaped (sigil v) id name text) →
  parse text v = Throw (ExpectedError (not_valid text v)).
Proof.
  intros Hno. destruct v; unfold parse, SlackUser_cast, SlackChannel_cast.
  - change SlackUser_pattern with (mention_pattern (sigil User)).
    rewrite (String_match_not_escaped _ _ Hno). cbn [ToBoolean negb].
    reflexivity.
  - change SlackChannel_pattern with (mention_pattern (sigil Channel)).
    rewrite (String_match_not_escaped _ _ Hno). cbn [ToBoolean negb].
    reflexivity.
Qed.

Lemma Mention_id v id name : get (Mention v id name) (js "id") = Ok id.
Proof.
  destruct v; unfold Mention, new_SlackUser, new_SlackChannel, get;
    cbn [lookup_property]; by rewrite lookup_insert_eq.
Qed.

Lemma Mention_name v id name :
  get (Mention v id name) (js "name") = Ok name.
Proof.
  destruct v; unfold Mention, new_SlackUser, new_SlackChannel, get;
    cbn [lookup_property]; by rewrite lookup_insert_ne, lookup_singleton_eq.
Qed.

Lemma Mention_inj v id name id' name' :
  Mention v id name = Mention v id' name' → id = id' ∧ name = name'.
Proof.
  intros Heq. split.
  - pose proof (Mention_id v id name) as H. rewrite Heq, Mention_id in H.
    congruence.
  - pose proof (Mention_name v id name) as H.
    rewrite Heq, Mention_name in H. congruence.
Qed.

Lemma pretty_N_go_digits x : ∀ s,
  Forall is_digit (js s) → Forall is_digit (js (pretty_N_go x s)).
Proof.
  induction (N.lt_wf_0 x) as [x _ IH]; intros s Hs.
  assert (x = 0 ∨ 0 < x)%N as [->|?] by lia.
  - by rewrite pretty_N_go_0.
  - rewrite pretty_N_go_step by done. apply IH; [by apply N.div_lt|].
    apply Forall_cons. split; [|done].
    unfold pretty_N_char, is_digit. repeat case_match; compute; naive_solver.
Qed.

Lemma key_of_index_digits i : Forall is_digit (key_of_index i).
Proof.
  unfold key_of_index, pretty, pretty_nat, pretty, pretty_N.
  case_decide.
  - apply Forall_cons. split; [compute; naive_solver|constructor].
  - apply pretty_N_go_digits. constructor.
Qed.

Lemma key_of_index_ne i u k : ¬ is_digit u → key_of_index i ≠ u :: k.
Proof.
  intros Hu Heq. pose proof (key_of_index_digits i) as Hd.
  rewrite Heq in Hd. by apply Forall_cons in Hd as [? _].
Qed.




(** ** isSlackCommandResponse *)

(** A falsy argument is handed back as it is. *)
Lemma isSlackCommandResponse_falsy v :
  ToBoolean v = false → isSlackCommandResponse v = Ok v.
Proof.
  intros Hv. unfold isSlackCommandResponse, js_and. rewrite Hv. cbn.
  by rewrite Hv.
Qed.

Lemma not_structured v :
  ToBoolean v = true → ¬ structured v →
  isSlackCommandResponse v = Ok (VBoolean false).
Proof.
  intros Hv Hs. unfold isSlackCommandResponse, js_and. rewrite Hv.
  destruct v as [| | | | | | | |[] ?|? ?]; try done; by destruct Hs.
Qed.

Lemma typeof_string t :
  strict_equal_string (typeof t) (js "string") = VBoolean true
  ↔ ∃ s, t = VString s.
Proof.
  destruct t as [| | | | | | | |[] ?|? ?]; (split; [|by intros [? ?]]);
    first [done | by eexists].
Qed.

Lemma typeof_boolean t :
  ∃ b, strict_equal_string (typeof t) (js "string") = VBoolean b.
Proof. by eexists. Qed.

Lemma Array_isArray_true a :
  Array_isArray a = VBoolean true ↔ ∃ items, a = VArray items.
Proof. destruct a; (split; [|by intros [? ?]]); first [done | by eexists]. Qed.

Lemma Array_isArray_boolean a : ∃ b, Array_isArray a = VBoolean b.
Proof. destruct a; by eexists. Qed.

(** The last conjunct of the source, on an object that passed the guards:
    a boolean, [true] when [text] is a string or [attachments] an array. *)
Lemma text_or_attachments text attachments :
  ∃ b, js_or (strict_equal_string (typeof text) (js "string"))
         (mret (Array_isArray attachments)) = Ok (VBoolean b)
       ∧ (b = true ↔
          (∃ s, text = VString s) ∨ (∃ items, attachments = VArray items)).
Proof.
  destruct (typeof_boolean text) as [[] Ht];
    destruct (Array_isArray_boolean attachments) as [b Ha];
    unfold js_or; rewrite Ht; cbn [ToBoolean].
  - exists true. split; [done|]. split; [|done]. intros _. left.
    by apply typeof_string.
  - exists b. rewrite Ha. split; [done|].
    rewrite <- typeof_string, <- Array_isArray_true, Ht, Ha.
    split; [intros ->; by right|]. intros [?|?]; congruence.
Qed.

(** A truthy argument gets a boolean, [true] for the recognized shape. *)
Lemma isSlackCommandResponse_truthy v :
  ToBoolean v = true →
  ∃ b, isSlackCommandResponse v = Ok (VBoolean b)
       ∧ (b = true ↔ ResponsePayload_shape v).
Proof.
  intros Hv. destruct (decide (structured v)) as [Hs|Hs]; last first.
  { exists false. split; [by apply not_structured|].
    split; [done|]. by intros [? _]. }
  unfold ResponsePayload_shape, isSlackCommandResponse, js_and.
  rewrite Hv. cbn [mret result_ret mbind result_bind].
  assert (strict_equal_string (typeof v) (js "object") = VBoolean true)
    as -> by (by destruct v as [| | | | | | | |[] ?|? ?]).
  cbn [ToBoolean].
  assert (∃ text attachments,
            get v (js "text") = Ok text
            ∧ get v (js "attachments") = Ok attachments)
    as (text & attachments & -> & ->)
    by (destruct v; try done; by do 2 eexists).
  cbn [mbind result_bind].
  destruct (text_or_attachments text attachments) as (b & -> & Hb).
  exists b. split; [done|]. rewrite Hb.
  split; [intros [[s ->]|[items ->]]; (split; [done|]); eauto|].
  intros [_ [[s [= ->]]|[items [= ->]]]]; eauto.
Qed.

(** ** Writing properties and [Object.assign] *)

Lemma proto_key_digit : ¬ is_digit (chr "_").
Proof. compute. by intros [? ?]. Qed.

Lemma own_props_with_own v props :
  ordinary v → own_props (with_own v props) = props.
Proof. by destruct v. Qed.

Lemma with_own_with_own v props props' :
  with_own (with_own v props) props' = with_own v props'.
Proof. by destruct v. Qed.

Lemma ordinary_with_own v props : ordinary v → ordinary (with_own v props).
Proof. by destruct v. Qed.

Lemma inherits_with_own v props :
  props !! proto_key = own_props v !! proto_key →
  inherits_proto_accessor (with_own v props) = inherits_proto_accessor v.
Proof. destruct v; try done; cbn; by intros ->. Qed.

(** A write under another key than [__proto__] is a write to the own
    properties. *)
Lemma set_other t k x :
  ordinary t → k ≠ proto_key →
  set t k x = with_own t (<[k := x]> (own_props t)).
Proof.
  intros Ht Hk. destruct t; try done; unfold set;
    by rewrite (bool_decide_eq_false_2 _ Hk).
Qed.

Lemma set_proto t x :
  ordinary t →
  set t proto_key x =
  if inherits_proto_accessor t then
    if is_prototype_value x then VExtends x (own_props t) else t
  else with_own t (<[proto_key := x]> (own_props t)).
Proof.
  intros Ht. destruct t; try done; unfold set;
    by rewrite bool_decide_eq_true_2.
Qed.

Lemma ordinary_set t k x : ordinary t → ordinary (set t k x).
Proof.
  intros Ht. destruct (decide (k = proto_key)) as [->|Hk].
  - rewrite set_proto by done. repeat case_match; try done.
    by apply ordinary_with_own.
  - rewrite set_other by done. by apply ordinary_with_own.
Qed.

Lemma lookup_with_own_insert t j y k :
  ordinary t →
  lookup_property (with_own t (<[j := y]> (own_props t))) k =
  if decide (j = k) then y else lookup_property t k.
Proof.
  intros Ht. destruct t; try done; cbn [with_own own_props lookup_property];
    rewrite lookup_insert; by case_decide.
Qed.

(** Two writes under different keys can be swapped. *)
Lemma set_comm t k1 k2 x1 x2 :
  k1 ≠ k2 → set (set t k2 x2) k1 x1 = set (set t k1 x1) k2 x2.
Proof.
  intros Hk. destruct (decide (ordinary t)) as [Ht|Ht];
    [|by destruct t].
  assert (∀ k x, k ≠ proto_key →
            inherits_proto_accessor (set t k x) = inherits_proto_accessor t)
    as Hinh.
  { intros k x Hne. rewrite set_other by done. apply inherits_with_own.
    by rewrite lookup_insert_ne. }
  assert (∀ k x, k ≠ proto_key →
            own_props (set t k x) = <[k := x]> (own_props t)) as Hown.
  { intros k x Hne. rewrite set_other by done. by apply own_props_with_own. }
  destruct (decide (k1 = proto_key)) as [->|H1];
    [|destruct (decide (k2 = proto_key)) as [->|H2]].
  - assert (k2 ≠ proto_key) as H2 by congruence.
    rewrite (set_proto (set _ _ _)) by by apply ordinary_set.
    rewrite Hinh, Hown by done. rewrite (set_proto t) by done.
    destruct (inherits_proto_accessor t);
      [destruct (is_prototype_value x1)|].
    + by rewrite set_other.
    + done.
    + rewrite (set_other t), (set_other (with_own _ _))
        by (done || by apply ordinary_with_own).
      rewrite ?own_props_with_own, !with_own_with_own by done.
      by rewrite insert_insert_ne.
  - rewrite (set_proto (set _ _ _)) by by apply ordinary_set.
    rewrite Hinh, Hown by done. rewrite (set_proto t) by done.
    destruct (inherits_proto_accessor t);
      [destruct (is_prototype_value x2)|].
    + by rewrite set_other.
    + done.
    + rewrite (set_other t), (set_other (with_own _ _))
        by (done || by apply ordinary_with_own).
      rewrite ?own_props_with_own, !with_own_with_own by done.
      by rewrite insert_insert_ne.
  - rewrite !(set_other (set _ _ _)) by (done || by apply ordinary_set).
    rewrite !Hown, !(set_other t), !with_own_with_own by done.
    by rewrite insert_insert_ne.
Qed.

(** [Object.assign] from a source with one more property writes that
    property last, wherever it stands among the others. *)
Lemma Object_assign_insert (t : value) (m : gmap jstring value) k x :
  m !! k = None →
  map_fold (λ k x target, set target k x) t (<[k := x]> m) =
  set (map_fold (λ k x target, set target k x) t m) k x.
Proof.
  intros Hk. apply (map_fold_insert_L (λ k x target, set target k x));
    [|done].
  intros j1 j2 z1 z2 y Hj _ _. by apply set_comm.
Qed.

(** What [Object.assign] leaves of an ordinary object: the properties of
    the source over its own, but for [__proto__], which replaces the
    prototype, is dropped, or is an own property like the others. *)
Lemma Object_assign_eq t source :
  ordinary t →
  Object_assign t source =
  let props := own_enumerable source in
  match props !! proto_key with
  | None => with_own t (props ∪ own_props t)
  | Some p =>
      if inherits_proto_accessor t then
        if is_prototype_value p
        then VExtends p (delete proto_key props ∪ own_props t)
        else with_own t (delete proto_key props ∪ own_props t)
      else with_own t (props ∪ own_props t)
  end.
Proof.
  intros Ht. unfold Object_assign. cbn zeta.
  generalize (own_enumerable source). intros props.
  induction props as [|k x m Hk IH] using map_ind.
  - rewrite map_fold_empty, lookup_empty, (left_id_L ∅ (∪)).
    by destruct t.
  - rewrite Object_assign_insert, IH by done.
    destruct (decide (k = proto_key)) as [->|Hne].
    + rewrite Hk, lookup_insert_eq, delete_insert_eq, delete_id by done.
      rewrite set_proto by by apply ordinary_with_own.
      rewrite inherits_with_own, own_props_with_own by
        (done || by rewrite lookup_union_r).
      destruct (inherits_proto_accessor t); [done|].
      by rewrite with_own_with_own, insert_union_l.
    + rewrite lookup_insert_ne, delete_insert_ne by done.
      destruct (m !! proto_key) as [p|] eqn:Hp.
      * destruct (inherits_proto_accessor t);
          [destruct (is_prototype_value p)|].
        -- rewrite set_other by done. cbn [with_own own_props].
           by rewrite insert_union_l.
        -- rewrite set_other by (done || by apply ordinary_with_own).
           rewrite ?own_props_with_own, !with_own_with_own by done.
           by rewrite insert_union_l.
        -- rewrite set_other by (done || by apply ordinary_with_own).
           rewrite ?own_props_with_own, !with_own_with_own by done.
           by rewrite insert_union_l.
      * rewrite set_other by (done || by apply ordinary_with_own).
        rewrite ?own_props_with_own, !with_own_with_own by done.
        by rewrite insert_union_l.
Qed.

Lemma ordinary_Object_assign t source :
  ordinary t → ordinary (Object_assign t source).
Proof.
  intros Ht. rewrite Object_assign_eq by done. cbn zeta.
  repeat case_match; try done; by apply ordinary_with_own.
Qed.

(** Under every key but [__proto__], the own properties after
    [Object.assign] are those of the source over those of the target. *)
Lemma own_props_Object_assign t source k :
  ordinary t → k ≠ proto_key →
  own_props (Object_assign t source) !! k
  = (own_enumerable source ∪ own_props t) !! k.
Proof.
  intros Ht Hk. rewrite Object_assign_eq by done. cbn zeta.
  repeat case_match; cbn [own_props];
    rewrite ?own_props_with_own by done; try done;
    by rewrite !lookup_union, lookup_delete_ne.
Qed.

Lemma lookup_property_own v k x :
  ordinary v → own_props v !! k = Some x → lookup_property v k = x.
Proof. destruct v; try done; cbn; by intros _ ->. Qed.

Lemma get_ordinary v k : ordinary v → get v k = Ok (lookup_property v k).
Proof. by destruct v. Qed.

(** ** The constructor of SlackCommandContext *)

Lemma lookup_set t j y k :
  ordinary t → j ≠ proto_key →
  lookup_property (set t j y) k =
  if decide (j = k) then y else lookup_property t k.
Proof.
  intros Ht Hj. rewrite set_other by done. by apply lookup_with_own_insert.
Qed.

Lemma user_not_proto : js "user" ≠ proto_key.
Proof. done. Qed.

Lemma channel_not_proto : js "channel" ≠ proto_key.
Proof. done. Qed.

(** The instance the constructor leaves: what [Object.assign] made of the
    one [super] left, with [user] and [channel] written to it. *)
Lemma new_SlackCommandContext_eq (this : gmap jstring value) ext :
  new_SlackCommandContext this ext =
  Ok (set
        (set (Object_assign (instance this) ext) (js "user")
           (Mention User (assigned this ext (js "user_id"))
              (assigned this ext (js "user_name"))))
        (js "channel")
        (Mention Channel (assigned this ext (js "channel_id"))
           (assigned this ext (js "channel_name")))).
Proof.
  unfold new_SlackCommandContext, SlackCommandContext_constructor, assigned.
  pose proof (ordinary_Object_assign (instance this) ext I) as HA.
  set (A := Object_assign (instance this) ext) in *.
  cbn zeta. rewrite !(get_ordinary A) by done.
  cbn [mbind result_bind].
  rewrite !get_ordinary by by apply ordinary_set.
  cbn [mbind result_bind mret result_ret].
  by rewrite !lookup_set by (done || apply user_not_proto).
Qed.

(** Reading a property of the context. *)
Lemma context_get (this : gmap jstring value) ext k :
  new_SlackCommandContext this ext ≫= (λ ctx, get ctx k) =
  Ok (if decide (js "channel" = k)
      then Mention Channel (assigned this ext (js "channel_id"))
             (assigned this ext (js "channel_name"))
      else if decide (js "user" = k)
      then Mention User (assigned this ext (js "user_id"))
             (assigned this ext (js "user_name"))
      else assigned this ext k).
Proof.
  rewrite new_SlackCommandContext_eq. cbn [mbind result_bind].
  pose proof (ordinary_Object_assign (instance this) ext I) as HA.
  rewrite get_ordinary by by do 2 apply ordinary_set.
  rewrite lookup_set by (by apply ordinary_set || apply channel_not_proto).
  by rewrite lookup_set by (done || apply user_not_proto).
Qed.

Lemma get_instance (props : gmap jstring value) k :
  get (instance props) k = Ok (default VUndefined (props !! k)).
Proof. reflexivity. Qed.

(** A property the extension has of its own is what [this] reads. *)
Lemma assigned_own (this : gmap jstring value) ext k x :
  own_enumerable ext !! k = Some x → k ≠ proto_key →
  assigned this ext k = x.
Proof.
  intros Hk Hne. unfold assigned. apply lookup_property_own.
  - by apply ordinary_Object_assign.
  - rewrite own_props_Object_assign by done. by apply lookup_union_Some_l.
Qed.

(** Without a prototype put in, a property the extension lacks is read as
    [super] left it. *)
Lemma assigned_kept (this : gmap jstring value) ext k :
  keeps_prototype ext → own_enumerable ext !! k = None → k ≠ proto_key →
  assigned this ext k = default VUndefined (this !! k).
Proof.
  intros Hkeep Hk Hne. unfold assigned.
  rewrite Object_assign_eq by done. cbn zeta.
  destruct (own_enumerable ext !! proto_key) as [p|] eqn:Hp.
  - unfold keeps_prototype in Hkeep. rewrite Hp in Hkeep. rewrite Hkeep.
    destruct (inherits_proto_accessor _);
      cbn [instance with_own own_props lookup_property];
      by rewrite lookup_union_r by by rewrite ?lookup_delete_ne.
  - cbn [instance with_own own_props lookup_property].
    by rewrite lookup_union_r.
Qed.

(** With a prototype put in, it is read from that prototype. *)
Lemma assigned_replaced (this : gmap jstring value) ext p k :
  this !! proto_key = None → own_enumerable ext !! proto_key = Some p →
  is_prototype_value p = true →
  own_enumerable ext !! k = None → this !! k = None →
  assigned this ext k = lookup_property p k.
Proof.
  intros Hthis Hp Hproto Hk Hk'. unfold assigned.
  rewrite Object_assign_eq by done. cbn zeta. rewrite Hp.
  cbn [instance inherits_proto_accessor own_props].
  rewrite bool_decide_eq_true_2, Hproto by done.
  cbn [lookup_property].
  by rewrite (proj2 (lookup_union_None _ _ _))
    by (by rewrite ?lookup_delete_None; auto).
Qed.

(** ** Rendering *)

Lemma encode_strings host v (id name : jstring) :
  encode host (Mention v (VString id) (VString name)) v =
  Ok (chr "<" :: sigil v :: id ++ chr "|" :: name ++ [chr ">"]).
Proof.
  destruct v; unfold encode, SlackUser_toString, SlackChannel_toString.
  - by rewrite (Mention_id User), (Mention_name User).
  - by rewrite (Mention_id Channel), (Mention_name Channel).
Qed.

(** C5: encoding a user mention gives exactly "<@" + id + "|" + name + ">"
    and a channel mention "<#" + id + "|" + name + ">", the id and the name
    taken as they are; [Mention(User, "U123", "bob")] gives "<@U123|bob>". *)
Theorem encode_exact host (id name : jstring) :
  encode host (Mention User (VString id) (VString name)) User
    = Ok (js "<@" ++ id ++ js "|" ++ name ++ js ">")
  ∧ encode host (Mention Channel (VString id) (VString name)) Channel
    = Ok (js "<#" ++ id ++ js "|" ++ name ++ js ">")
  ∧ encode host (Mention User (VString (js "U123")) (VString (js "bob"))) User
    = Ok (js "<@U123|bob>").
Proof. by rewrite !encode_strings. Qed.

(** ** Round trip *)

Lemma round_trip_escaped host v (id name : jstring) :
  id ≠ [] → chr "|" ∉ id → name ≠ [] → chr ">" ∉ name →
  encode host (Mention v (VString id) (VString name)) v
    ≫= (λ text, parse text v)
  = Ok (Mention v (VString id) (VString name)).
Proof.
  intros. rewrite encode_strings. cbn [mbind result_bind].
  by apply parse_escaped.
Qed.

(** C1, as the code has it: for all non-empty ids and names without "<",
    ">" and "|", parsing the encoding of a mention with the parser of its
    variant gives the mention back. *)
Theorem round_trip host v (id name : jstring) :
  id ≠ [] → name ≠ [] → delimiter_free id → delimiter_free name →
  encode host (Mention v (VString id) (VString name)) v
    ≫= (λ text, parse text v)
  = Ok (Mention v (VString id) (VString name)).
Proof.
  intros ? ? (_ & _ & ?) (_ & ? & _). by apply round_trip_escaped.
Qed.

(** The round trip of user and channel U123 "bob". *)
Lemma round_trip_U123_bob :
  (js "U123" ≠ [] ∧ js "bob" ≠ []
   ∧ delimiter_free (js "U123") ∧ delimiter_free (js "bob"))
  ∧ ∀ host v,
      encode host (Mention v (VString (js "U123")) (VString (js "bob"))) v
        ≫= (λ text, parse text v)
      = Ok (Mention v (VString (js "U123")) (VString (js "bob"))).
Proof.
  assert (js "U123" ≠ [] ∧ js "bob" ≠ []
          ∧ delimiter_free (js "U123") ∧ delimiter_free (js "bob"))
    as H by (by compute_done).
  split; [exact H|].
  intros host v. destruct H as (H1 & H2 & H3 & H4).
  exact (round_trip host v (js "U123") (js "bob") H1 H2 H3 H4).
Defined.

(** C1, as the specification states it, fails for an empty id: the
    encoding "<@|bob>" of [Mention(User, "", "bob")] is refused. *)
Lemma round_trip_empty_id :
  delimiter_free [] ∧ delimiter_free (js "bob")
  ∧ ∀ host,
      encode host (Mention User (VString []) (VString (js "bob"))) User
        ≫= (λ text, parse text User)
      = Throw (ExpectedError (not_valid (js "<@|bob>") User)).
Proof.
  split_and!; [by compute_done..|].
  intros host. by rewrite encode_strings.
Qed.

(** ** Acceptance *)

Lemma sigil_inj v v' : sigil v = sigil v' → v = v'.
Proof. by destruct v, v'. Qed.

(** Where the first [c] of a string stands decides what is before and
    after it. *)
Lemma first_occurrence (c : code_unit) (l1 l2 r1 r2 : jstring) :
  c ∉ l1 → c ∉ l2 → l1 ++ c :: r1 = l2 ++ c :: r2 → l1 = l2 ∧ r1 = r2.
Proof.
  revert l2. induction l1 as [|u l1 IH]; intros [|u' l2] H1 H2 Heq;
    simplify_eq/=.
  - done.
  - by apply not_elem_of_cons in H2 as [? _].
  - by apply not_elem_of_cons in H1 as [? _].
  - apply not_elem_of_cons in H1 as [_ H1].
    apply not_elem_of_cons in H2 as [_ H2].
    destruct (IH l2 H1 H2) as [-> ->]; done.
Qed.

Lemma parse_cases text v :
  (∃ id name, escaped (sigil v) id name text
              ∧ parse text v = Ok (Mention v (VString id) (VString name)))
  ∨ ((∀ id name, ¬ escaped (sigil v) id name text) ∧ rejects text v).
Proof.
  destruct (escaped_or_not (sigil v) text) as [(id & name & Hesc)|Hno].
  - left. exists id, name. split; [done|]. by apply parse_escaped.
  - right. split; [done|]. by apply parse_not_escaped.
Qed.

Lemma parse_Ok_iff text v (id name : jstring) :
  parse text v = Ok (Mention v (VString id) (VString name))
  ↔ escaped (sigil v) id name text.
Proof.
  split; [|apply parse_escaped].
  destruct (parse_cases text v) as [(id' & name' & Hesc & ->)|[_ ->]];
    [|done].
  intros [= [[= ->] [= ->]]%Mention_inj]. done.
Qed.

Lemma rejects_other_sigil v v' tail :
  v ≠ v' → rejects (chr "<" :: sigil v' :: tail) v.
Proof.
  intros Hv. apply parse_not_escaped. intros id name ([= Hs _] & _).
  by apply sigil_inj in Hs.
Qed.

Lemma rejects_empty_id v tail :
  rejects (chr "<" :: sigil v :: chr "|" :: tail) v.
Proof.
  apply parse_not_escaped. intros [|u id] name ([= Heq] & Hid & Hbar & _);
    [done|].
  simplify_eq/=. by apply not_elem_of_cons in Hbar as [? _].
Qed.

Lemma rejects_empty_name v (id : jstring) :
  chr "|" ∉ id → rejects (chr "<" :: sigil v :: id ++ [chr "|"; chr ">"]) v.
Proof.
  intros Hid. apply parse_not_escaped.
  intros id' name' ([= Heq] & _ & Hbar & Hname & _).
  apply first_occurrence in Heq as [_ Heq]; [|done..].
  by destruct name' as [|? [|? ?]].
Qed.

Lemma rejects_other_start u text v : u ≠ chr "<" → rejects (u :: text) v.
Proof.
  intros Hu. apply parse_not_escaped. by intros id name ([= ? _] & _).
Qed.

Lemma rejects_suffix text suffix v id name :
  escaped (sigil v) id name text → suffix ≠ [] → rejects (text ++ suffix) v.
Proof.
  intros (-> & _ & Hbar & _ & Hgt) Hsuffix. apply parse_not_escaped.
  intros id' name' (Heq & _ & Hbar' & _ & Hgt').
  cbn [app] in Heq. injection Heq as Heq.
  rewrite <- (assoc_L (++)) in Heq. cbn [app] in Heq.
  apply first_occurrence in Heq as [_ Heq]; [|done..].
  rewrite <- (assoc_L (++)) in Heq. cbn [app] in Heq.
  apply first_occurrence in Heq as [_ Heq]; [|done..].
  by destruct suffix.
Qed.

Lemma parse_whole_text host text v m :
  parse text v = Ok m → encode host m v = Ok text.
Proof.
  destruct (parse_cases text v) as [(id & name & Hesc & ->)|[_ ->]];
    [|done].
  intros [= <-]. rewrite encode_strings. by destruct Hesc as [-> _].
Qed.

(** C2: [parse(text, variant)] returns [Mention(id, name)] exactly when
    [text] is "<", the sigil of the variant, a non-empty id without "|",
    "|", a non-empty name without ">", and ">", with nothing around; and
    it returns nothing but such mentions.  So an empty id or name, text
    before or after the token, and the sigil of the other variant are all
    refused. *)
Theorem parse_accepts_exactly_escaped :
  (∀ text v (id name : jstring),
     parse text v = Ok (Mention v (VString id) (VString name))
     ↔ text = chr "<" :: sigil v :: id ++ chr "|" :: name ++ [chr ">"]
       ∧ id ≠ [] ∧ (chr "|" ∉ id) ∧ name ≠ [] ∧ (chr ">" ∉ name))
  ∧ (∀ text v m,
       parse text v = Ok m →
       ∃ id name : jstring, m = Mention v (VString id) (VString name))
  (* a zero-length segment *)
  ∧ (∀ v tail, rejects (chr "<" :: sigil v :: chr "|" :: tail) v)
  ∧ (∀ v (id : jstring),
       chr "|" ∉ id →
       rejects (chr "<" :: sigil v :: id ++ [chr "|"; chr ">"]) v)
  ∧ rejects (js "<@|alice>") User ∧ rejects (js "<@U1|>") User
  (* anchored at both ends *)
  ∧ (∀ host text v m, parse text v = Ok m → encode host m v = Ok text)
  ∧ (∀ u text v, u ≠ chr "<" → rejects (u :: text) v)
  ∧ (∀ text suffix v id name,
       escaped (sigil v) id name text → suffix ≠ [] →
       rejects (text ++ suffix) v)
  ∧ rejects (js "prefix<@U1|alice>") User
  ∧ rejects (js "<@U1|alice> and more") User
  (* the sigil of the other variant *)
  ∧ (∀ v v' tail, v ≠ v' → rejects (chr "<" :: sigil v' :: tail) v)
  ∧ rejects (js "<#C1|general>") User ∧ rejects (js "<@U1|alice>") Channel.
Proof.
  split_and!; try reflexivity.
  - apply parse_Ok_iff.
  - intros text v m.
    destruct (parse_cases text v) as [(id & name & _ & ->)|[_ ->]]; [|done].
    intros [= <-]. eauto.
  - apply rejects_empty_id.
  - apply rejects_empty_name.
  - apply parse_whole_text.
  - apply rejects_other_start.
  - apply rejects_suffix.
  - apply rejects_other_sigil.
Qed.

(** The token "<@U1|alice>", alone and with a character before or after. *)
Lemma parse_U1_alice :
  parse (js "<@U1|alice>") User
  = Ok (Mention User (VString (js "U1")) (VString (js "alice")))
  ∧ rejects (js "<@U1|alice>" ++ js "!") User
  ∧ rejects (chr "x" :: js "<@U1|alice>") User
  ∧ rejects (chr "<" :: sigil Channel :: js "C1|general>") User.
Proof.
  destruct parse_accepts_exactly_escaped
    as (Hiff & _ & _ & _ & _ & _ & _ & Hstart & Hsuffix & _ & _ & Hsigil & _).
  assert (escaped (sigil User) (js "U1") (js "alice") (js "<@U1|alice>"))
    as Hesc by (by compute_done).
  split_and!.
  - apply Hiff. exact Hesc.
  - apply (Hsuffix _ _ _ _ _ Hesc). by compute_done.
  - apply Hstart. by compute_done.
  - apply Hsigil. discriminate.
Defined.

(** C10: for any text "<" + sigil + A + "|" + B + ">" with A non-empty
    without "|" and B non-empty without ">", [parse] returns the mention
    with id A and name B: an instance of the variant's class whose [id]
    reads A and whose [name] reads B, and which has no other property; B
    may hold further "|", and A may hold "<" and ">". *)
Theorem parse_segments v (A B : jstring) :
  A ≠ [] → chr "|" ∉ A → B ≠ [] → chr ">" ∉ B →
  ∃ m,
    parse (js "<" ++ [sigil v] ++ A ++ js "|" ++ B ++ js ">") v = Ok m
    ∧ m = Mention v (VString A) (VString B)
    ∧ get m (js "id") = Ok (VString A)
    ∧ get m (js "name") = Ok (VString B)
    ∧ m = VObject
            match v with
            | User => SlackUserClass
            | Channel => SlackChannelClass
            end
            {[ js "id" := VString A; js "name" := VString B ]}.
Proof.
  intros. exists (Mention v (VString A) (VString B)).
  split; [by apply parse_escaped|]. split; [done|].
  split; [apply Mention_id|]. split; [apply Mention_name|].
  by destruct v.
Qed.

(** The text "<@U1|a|b>": the name "a|b" holds a "|". *)
Lemma parse_name_with_bar :
  (js "U1" ≠ [] ∧ (chr "|" ∉ js "U1") ∧ js "a|b" ≠ []
   ∧ (chr ">" ∉ js "a|b"))
  ∧ (chr "|" ∈ js "a|b")
  ∧ ∃ m,
      parse (js "<@U1|a|b>") User = Ok m
      ∧ m = Mention User (VString (js "U1")) (VString (js "a|b"))
      ∧ get m (js "id") = Ok (VString (js "U1"))
      ∧ get m (js "name") = Ok (VString (js "a|b"))
      ∧ m = VObject SlackUserClass
              {[ js "id" := VString (js "U1");
                 js "name" := VString (js "a|b") ]}.
Proof.
  assert (js "U1" ≠ [] ∧ (chr "|" ∉ js "U1") ∧ js "a|b" ≠ []
          ∧ (chr ">" ∉ js "a|b")) as H by (by compute_done).
  split; [exact H|]. split; [by compute_done|].
  destruct H as (H1 & H2 & H3 & H4).
  exact (parse_segments User (js "U1") (js "a|b") H1 H2 H3 H4).
Defined.

(** An id that holds "<" and ">". *)
Example parse_id_with_brackets :
  parse (js "<@<U>1|bob>") User
  = Ok (Mention User (VString (js "<U>1")) (VString (js "bob"))).
Proof. reflexivity. Qed.

(** C6: a text that is not an escaped mention of the expected variant
    makes [parse] throw an [ExpectedError] whose message quotes the text
    and names the variant, and [parse] throws nothing else; the other
    operations do not throw. *)
Theorem parse_throws_ExpectedError :
  (∀ text v,
     (∀ id name, ¬ escaped (sigil v) id name text)
     ↔ parse text v
       = Throw (ExpectedError
                  (quote ++ text ++ quote ++ js " is not a valid escaped slack "
                     ++ match v with
                        | User => js "user"
                        | Channel => js "channel"
                        end)))
  ∧ (∀ text v e,
       parse text v = Throw e →
       e = ExpectedError (not_valid text v)
       ∧ ∀ id name, ¬ escaped (sigil v) id name text)
  ∧ (∀ host v (id name : jstring),
       ∃ text, encode host (Mention v (VString id) (VString name)) v = Ok text)
  ∧ (∀ this ext, ∃ ctx, new_SlackCommandContext this ext = Ok ctx)
  ∧ (∀ object, ∃ r, isSlackCommandResponse object = Ok r).
Proof.
  split_and!.
  - intros text v. split; [apply parse_not_escaped|].
    intros Hthrow id name Hesc%parse_escaped.
    fold (not_valid text v) in Hthrow. congruence.
  - intros text v e.
    destruct (parse_cases text v) as [(id & name & _ & ->)|[Hno ->]];
      [done|].
    by intros [= <-].
  - intros. rewrite encode_strings. eauto.
  - intros. rewrite new_SlackCommandContext_eq. eauto.
  - intros object. destruct (ToBoolean object) eqn:Hv.
    + destruct (isSlackCommandResponse_truthy _ Hv) as (b & -> & _). eauto.
    + rewrite isSlackCommandResponse_falsy by done. eauto.
Qed.

(** The text "hello" where a user is expected. *)
Lemma parse_hello_throws :
  parse (js "hello") User
  = Throw (ExpectedError
             (quote ++ js "hello" ++ quote
                ++ js " is not a valid escaped slack user"))
  ∧ ∀ id name, ¬ escaped (sigil User) id name (js "hello").
Proof.
  split; [reflexivity|].
  exact (proj2 (proj1 (proj2 parse_throws_ExpectedError)
                  (js "hello") User _ eq_refl)).
Defined.

(** C3: the recognizer returns [true] exactly for a non-null value of
    object kind whose [text] is a string or whose [attachments] is an
    array, and its result is truthy for these values only. *)
Theorem isSlackCommandResponse_true_iff_shape :
  (∀ object,
     isSlackCommandResponse object = Ok (VBoolean true)
     ↔ ResponsePayload_shape object)
  ∧ (∀ object, recognizes object ↔ ResponsePayload_shape object)
  ∧ recognizes (VObject ObjectClass {[ js "text" := VString (js "hello") ]})
  ∧ recognizes (VObject ObjectClass {[ js "attachments" := VArray [] ]})
  ∧ recognizes
      (VObject ObjectClass
         {[ js "attachments" :=
              VArray [VObject ObjectClass {[ js "text" := VString (js "x") ]}] ]})
  ∧ ¬ recognizes (VObject ObjectClass ∅)
  ∧ ¬ recognizes (VObject ObjectClass {[ js "username" := VString (js "bot") ]})
  ∧ ¬ recognizes VNull
  ∧ ¬ recognizes (VString (js "hello"))
  ∧ ¬ recognizes
      (VObject ObjectClass {[ js "text" := VNumber (S754_finite false 5 0) ]}).
Proof.
  assert (∀ object,
            isSlackCommandResponse object = Ok (VBoolean true)
            ↔ ResponsePayload_shape object) as Htrue.
  { intros object. destruct (ToBoolean object) eqn:Hv.
    - destruct (isSlackCommandResponse_truthy _ Hv) as (b & -> & <-).
      split; congruence.
    - rewrite isSlackCommandResponse_falsy by done.
      split; [by intros [= ->]|].
      intros [Hs _]. by destruct object as [| | | | | | | |[] ?|? ?]. }
  assert (∀ object, recognizes object ↔ ResponsePayload_shape object) as Hrec.
  { intros object. rewrite <- Htrue. unfold recognizes.
    split; [|by eexists].
    intros (r & Hr & Htruthy). destruct (ToBoolean object) eqn:Hv.
    - destruct (isSlackCommandResponse_truthy _ Hv) as (b & Hb & _).
      rewrite Hr in Hb. injection Hb as ->. by destruct b.
    - rewrite isSlackCommandResponse_falsy in Hr by done. congruence. }
  split_and!; [done..| | | | | | | |];
    try (by eexists); intros (r & [= <-] & ?); done.
Qed.

(** C8 fails on the code: for a falsy argument the recognizer returns
    the argument, not [false]; for [null] it returns [null]. *)
Theorem isSlackCommandResponse_null :
  isSlackCommandResponse VNull = Ok VNull
  ∧ isSlackCommandResponse VUndefined = Ok VUndefined
  ∧ isSlackCommandResponse (VString []) = Ok (VString [])
  ∧ isSlackCommandResponse (VNumber (S754_zero false))
    = Ok (VNumber (S754_zero false))
  ∧ ∀ object,
      if ToBoolean object
      then ∃ b, isSlackCommandResponse object = Ok (VBoolean b)
      else isSlackCommandResponse object = Ok object.
Proof.
  split_and!; try reflexivity.
  intros object. destruct (ToBoolean object) eqn:Hv.
  - destruct (isSlackCommandResponse_truthy _ Hv) as (b & -> & _). eauto.
  - by apply isSlackCommandResponse_falsy.
Qed.

(** C7: building a context and recognizing a response never throw.  A
    field reaches the mentions as the context reads it: with the value of
    the extension, of any kind, when the extension has it; as [undefined]
    when neither the extension nor [super] has it and the extension puts
    no prototype in; with the value of the prototype the extension puts
    in when it is there. *)
Theorem construction_and_recognition_never_throw :
  (∀ this contextExtension,
     ∃ ctx, new_SlackCommandContext this contextExtension = Ok ctx)
  ∧ (∀ object, ∃ r, isSlackCommandResponse object = Ok r)
  ∧ (∀ this contextExtension,
       ∃ ctx user_id user_name,
         new_SlackCommandContext this contextExtension = Ok ctx
         ∧ get ctx (js "user_id") = Ok user_id
         ∧ get ctx (js "user_name") = Ok user_name
         ∧ get ctx (js "user") = Ok (Mention User user_id user_name))
  ∧ (∀ this contextExtension user_id user_name,
       own_enumerable contextExtension !! js "user_id" = Some user_id →
       own_enumerable contextExtension !! js "user_name" = Some user_name →
       new_SlackCommandContext this contextExtension
         ≫= (λ ctx, get ctx (js "user"))
       = Ok (Mention User user_id user_name))
  ∧ (∀ this contextExtension,
       keeps_prototype contextExtension →
       own_enumerable contextExtension !! js "user_id" = None →
       own_enumerable contextExtension !! js "user_name" = None →
       this !! js "user_id" = None → this !! js "user_name" = None →
       new_SlackCommandContext this contextExtension
         ≫= (λ ctx, get ctx (js "user"))
       = Ok (Mention User VUndefined VUndefined))
  ∧ new_SlackCommandContext ∅ VUndefined
    = Ok (instance
            {[ js "user" := Mention User VUndefined VUndefined;
               js "channel" := Mention Channel VUndefined VUndefined ]})
  ∧ new_SlackCommandContext ∅ VNull = new_SlackCommandContext ∅ VUndefined
  ∧ new_SlackCommandContext ∅ (VObject ObjectClass ∅)
    = new_SlackCommandContext ∅ VUndefined
  ∧ new_SlackCommandContext ∅ (VNumber (S754_finite false 5 0))
    = new_SlackCommandContext ∅ VUndefined
  ∧ new_SlackCommandContext ∅
      (VObject ObjectClass
         {[ js "user_id" := VNumber (S754_finite false 5 0);
            js "user_name" := VNull ]})
      ≫= (λ ctx, get ctx (js "user"))
    = Ok (Mention User (VNumber (S754_finite false 5 0)) VNull)
  ∧ new_SlackCommandContext ∅
      (VObject ObjectClass
         {[ proto_key :=
              VObject ObjectClass
                {[ js "user_id" := VString (js "U9");
                   js "user_name" := VString (js "carol") ]} ]})
      ≫= (λ ctx, get ctx (js "user"))
    = Ok (Mention User (VString (js "U9")) (VString (js "carol"))).
Proof.
  split_and!.
  - intros. rewrite new_SlackCommandContext_eq. eauto.
  - intros object. destruct (ToBoolean object) eqn:Hv.
    + destruct (isSlackCommandResponse_truthy _ Hv) as (b & -> & _). eauto.
    + rewrite isSlackCommandResponse_falsy by done. eauto.
  - intros this ext.
    pose proof (context_get this ext (js "user_id")) as Hid.
    pose proof (context_get this ext (js "user_name")) as Hname.
    pose proof (context_get this ext (js "user")) as Huser.
    rewrite new_SlackCommandContext_eq in *. cbn [mbind result_bind] in *.
    rewrite !decide_False in Hid by done.
    rewrite !decide_False in Hname by done.
    rewrite decide_False, decide_True in Huser by done. eauto 10.
  - intros this ext user_id user_name Hid Hname.
    rewrite context_get, decide_False, decide_True by done.
    by rewrite (assigned_own this ext _ _ Hid),
      (assigned_own this ext _ _ Hname).
  - intros this ext Hkeep Hid Hname Hid' Hname'.
    rewrite context_get, decide_False, decide_True by done.
    rewrite !assigned_kept by done. by rewrite Hid', Hname'.
  - vm_compute. reflexivity.
  - reflexivity.
  - reflexivity.
  - reflexivity.
  - vm_compute. reflexivity.
  - vm_compute. reflexivity.
Qed.

Lemma context_field (this : gmap jstring value) ext k :
  k ≠ js "user" → k ≠ js "channel" →
  new_SlackCommandContext this ext ≫= (λ ctx, get ctx k)
  = Ok (assigned this ext k).
Proof. intros. by rewrite context_get, !decide_False. Qed.

Lemma context_user (this : gmap jstring value) ext :
  new_SlackCommandContext this ext ≫= (λ ctx, get ctx (js "user"))
  = Ok (Mention User (assigned this ext (js "user_id"))
          (assigned this ext (js "user_name"))).
Proof. by rewrite context_get, decide_False, decide_True. Qed.

Lemma context_channel (this : gmap jstring value) ext :
  new_SlackCommandContext this ext ≫= (λ ctx, get ctx (js "channel"))
  = Ok (Mention Channel (assigned this ext (js "channel_id"))
          (assigned this ext (js "channel_name"))).
Proof. by rewrite context_get, decide_True. Qed.

Lemma fields_not_proto k :
  k ∈ SlackCommandContext_fields → k ≠ proto_key.
Proof.
  unfold SlackCommandContext_fields. rewrite !list_elem_of_fmap.
  intros (s & -> & Hs). revert s Hs. apply Forall_forall.
  repeat (apply Forall_cons; split; [done|]). constructor.
Qed.

Lemma fields_not_derived k :
  k ∈ SlackCommandContext_fields → k ≠ js "user" ∧ k ≠ js "channel".
Proof.
  unfold SlackCommandContext_fields. rewrite !list_elem_of_fmap.
  intros (s & -> & Hs). revert s Hs. apply Forall_forall.
  repeat (apply Forall_cons; split; [done|]). constructor.
Qed.

(** The context exists, and reads as [context_get] says. *)
Lemma context_reads (this : gmap jstring value) ext :
  ∃ ctx,
    new_SlackCommandContext this ext = Ok ctx
    ∧ get ctx (js "user")
      = Ok (Mention User (assigned this ext (js "user_id"))
              (assigned this ext (js "user_name")))
    ∧ get ctx (js "channel")
      = Ok (Mention Channel (assigned this ext (js "channel_id"))
              (assigned this ext (js "channel_name")))
    ∧ ∀ k, k ≠ js "user" → k ≠ js "channel" →
           get ctx k = Ok (assigned this ext k).
Proof.
  eexists. split; [apply new_SlackCommandContext_eq|].
  pose proof (context_user this ext) as Hu.
  pose proof (context_channel this ext) as Hc.
  rewrite new_SlackCommandContext_eq in Hu, Hc.
  split_and!; [exact Hu|exact Hc|].
  intros k ? ?. pose proof (context_field this ext k) as Hk.
  rewrite new_SlackCommandContext_eq in Hk. by apply Hk.
Qed.

(** C4: in the context built from a field bag, [user] and [channel] are
    the mentions of [user_id], [user_name] and of [channel_id],
    [channel_name] as the context holds them, and every field the bag has
    is on the context with the value of the bag.  A field the bag lacks
    reads as [super] left it, unless the bag puts a prototype in: then a
    field that [super] did not leave either is read from that prototype,
    and is [undefined] when the prototype is [null]. *)
Theorem context_mentions_project_fields (this bag : gmap jstring value) :
  ∃ ctx user_id user_name channel_id channel_name,
    new_SlackCommandContext this (VObject ObjectClass bag) = Ok ctx
    ∧ get ctx (js "user_id") = Ok user_id
    ∧ get ctx (js "user_name") = Ok user_name
    ∧ get ctx (js "channel_id") = Ok channel_id
    ∧ get ctx (js "channel_name") = Ok channel_name
    ∧ get ctx (js "user") = Ok (Mention User user_id user_name)
    ∧ get ctx (js "channel") = Ok (Mention Channel channel_id channel_name)
    ∧ get (Mention User user_id user_name) (js "id") = Ok user_id
    ∧ get (Mention User user_id user_name) (js "name") = Ok user_name
    ∧ get (Mention Channel channel_id channel_name) (js "id") = Ok channel_id
    ∧ get (Mention Channel channel_id channel_name) (js "name")
      = Ok channel_name
    ∧ (∀ k x,
         k ∈ SlackCommandContext_fields → bag !! k = Some x →
         get ctx k = Ok x)
    ∧ (∀ k,
         k ∈ SlackCommandContext_fields → bag !! k = None →
         keeps_prototype (VObject ObjectClass bag) →
         get ctx k = get (instance this) k)
    ∧ (∀ k p,
         k ∈ SlackCommandContext_fields → bag !! k = None →
         this !! k = None → this !! proto_key = None →
         bag !! proto_key = Some p → is_prototype_value p = true →
         get ctx k = match p with VNull => Ok VUndefined | _ => get p k end).
Proof.
  set (ext := VObject ObjectClass bag).
  destruct (context_reads this ext) as (ctx & Hctx & Huser & Hchannel & Hget).
  exists ctx, (assigned this ext (js "user_id")),
    (assigned this ext (js "user_name")),
    (assigned this ext (js "channel_id")),
    (assigned this ext (js "channel_name")).
  rewrite !Mention_id, !Mention_name, !Hget by done.
  split_and!; try done.
  - intros k x Hk Hbag. destruct (fields_not_derived k Hk).
    rewrite Hget by done.
    by rewrite (assigned_own this ext k x Hbag (fields_not_proto k Hk)).
  - intros k Hk Hbag Hkeep. destruct (fields_not_derived k Hk).
    rewrite Hget, get_instance by done.
    by rewrite (assigned_kept this ext k Hkeep Hbag (fields_not_proto k Hk)).
  - intros k p Hk Hbag Hthis Hproto Hp Hvalue.
    destruct (fields_not_derived k Hk). rewrite Hget by done.
    rewrite (assigned_replaced this ext p k) by done.
    by destruct p.
Qed.

(** The bag of user U9 "carol", on an instance [super] left empty: the
    context has the [user_id] of the bag and its [user] has that id. *)
Lemma context_of_U9 :
  ∃ ctx user,
    new_SlackCommandContext ∅
      (VObject ObjectClass
         {[ js "user_id" := VString (js "U9");
            js "user_name" := VString (js "carol") ]}) = Ok ctx
    ∧ get ctx (js "user_id") = Ok (VString (js "U9"))
    ∧ get ctx (js "user") = Ok user
    ∧ get user (js "id") = Ok (VString (js "U9")).
Proof.
  destruct (context_mentions_project_fields ∅
              {[ js "user_id" := VString (js "U9");
                 js "user_name" := VString (js "carol") ]})
    as (ctx & user_id & user_name & channel_id & channel_name & Hctx & Huid
        & _ & _ & _ & Huser & _ & Hid & _ & _ & _ & Hbag & _).
  exists ctx, (Mention User user_id user_name).
  assert (get ctx (js "user_id") = Ok (VString (js "U9"))) as Huid'.
  { apply Hbag; [by compute_done|vm_compute; reflexivity]. }
  rewrite Huid' in Huid. injection Huid as <-.
  split; [exact Hctx|]. split; [exact Huid'|]. split; [exact Huser|exact Hid].
Defined.

(** The example of the specification: user U9 "carol" in channel C2 "eng". *)
Example context_of_carol (this : gmap jstring value) :
  let bag := {[ js "user_id" := VString (js "U9");
                js "user_name" := VString (js "carol");
                js "channel_id" := VString (js "C2");
                js "channel_name" := VString (js "eng") ]} in
  ∃ ctx,
    new_SlackCommandContext this (VObject ObjectClass bag) = Ok ctx
    ∧ get ctx (js "user")
      = Ok (Mention User (VString (js "U9")) (VString (js "carol")))
    ∧ get ctx (js "channel")
      = Ok (Mention Channel (VString (js "C2")) (VString (js "eng"))).
Proof.
  intros bag.
  destruct (context_reads this (VObject ObjectClass bag))
    as (ctx & Hctx & Huser & Hchannel & _).
  exists ctx. split; [exact Hctx|].
  rewrite Huser, Hchannel.
  rewrite (assigned_own this (VObject ObjectClass bag) (js "user_id")
             (VString (js "U9")))
    by first [vm_compute; reflexivity | done].
  rewrite (assigned_own this (VObject ObjectClass bag) (js "user_name")
             (VString (js "carol")))
    by first [vm_compute; reflexivity | done].
  rewrite (assigned_own this (VObject ObjectClass bag) (js "channel_id")
             (VString (js "C2")))
    by first [vm_compute; reflexivity | done].
  rewrite (assigned_own this (VObject ObjectClass bag) (js "channel_name")
             (VString (js "eng")))
    by first [vm_compute; reflexivity | done].
  split; reflexivity.
Qed.

(** *** What the constructor overwrites *)


Lemma Object_assign_nothing t : Object_assign t (VObject ObjectClass ∅) = t.
Proof. unfold Object_assign. cbn [own_enumerable]. apply map_fold_empty. Qed.

(** The constructor on an ordinary [this]. *)
Lemma SlackCommandContext_constructor_eq t ext :
  ordinary t →
  SlackCommandContext_constructor t ext =
  let this := Object_assign t ext in
  Ok (set
        (set this (js "user")
           (Mention User (lookup_property this (js "user_id"))
              (lookup_property this (js "user_name"))))
        (js "channel")
        (Mention Channel (lookup_property this (js "channel_id"))
           (lookup_property this (js "channel_name")))).
Proof.
  intros Ht. unfold SlackCommandContext_constructor.
  pose proof (ordinary_Object_assign t ext Ht) as HA.
  set (A := Object_assign t ext) in *.
  cbn zeta. rewrite !(get_ordinary A) by done.
  cbn [mbind result_bind].
  rewrite !get_ordinary by by apply ordinary_set.
  cbn [mbind result_bind mret result_ret].
  by rewrite !lookup_set by (done || apply user_not_proto).
Qed.

(** The constructor derives [user] and [channel] from what
    [Object.assign] left. *)
Lemma constructor_after_assign t ext :
  ordinary t →
  SlackCommandContext_constructor t ext =
  SlackCommandContext_constructor (Object_assign t ext)
    (VObject ObjectClass ∅).
Proof.
  intros Ht.
  rewrite !SlackCommandContext_constructor_eq
    by (done || by apply ordinary_Object_assign).
  by rewrite Object_assign_nothing.
Qed.






(** * Further properties of the code *)

(** ** Mentions: what the round trip needs, and what it does otherwise *)

(** The round trip through [toString] and [cast] gives the mention back
    exactly when the id is non-empty without "|" and the name non-empty
    without ">"; "<" and ">" in the id and "|" and "<" in the name do no
    harm. *)
Theorem round_trip_iff host v (id name : jstring) :
  encode host (Mention v (VString id) (VString name)) v
    ≫= (λ text, parse text v)
  = Ok (Mention v (VString id) (VString name))
  ↔ id ≠ [] ∧ (chr "|" ∉ id) ∧ name ≠ [] ∧ (chr ">" ∉ name).
Proof.
  rewrite encode_strings. cbn [mbind result_bind]. rewrite parse_Ok_iff.
  unfold escaped. split; [by intros (_ & ? & ? & ? & ?)|].
  by intros (? & ? & ? & ?).
Qed.

(** [toString] escapes nothing: an id that holds a "|" comes back cut at
    its first "|", the rest of it moved to the front of the name. *)
Theorem round_trip_cuts_id host v (A B name : jstring) :
  A ≠ [] → chr "|" ∉ A → chr ">" ∉ B → chr ">" ∉ name →
  encode host (Mention v (VString (A ++ chr "|" :: B)) (VString name)) v
    ≫= (λ text, parse text v)
  = Ok (Mention v (VString A) (VString (B ++ chr "|" :: name)))
  ∧ Mention v (VString A) (VString (B ++ chr "|" :: name))
    ≠ Mention v (VString (A ++ chr "|" :: B)) (VString name).
Proof.
  intros HA Hbar HB Hname. split.
  - rewrite encode_strings. cbn [mbind result_bind]. apply parse_escaped.
    split_and!; [|done..| |].
    + by rewrite <- !(assoc_L (++)).
    + by destruct B.
    + rewrite elem_of_app, elem_of_cons. intros [?|[?|?]]; done.
  - intros [[= Heq] _]%Mention_inj.
    apply (f_equal length) in Heq. rewrite length_app in Heq.
    cbn in Heq. lia.
Qed.

(** The id "a|b" with the name "c" comes back as "a" and "b|c". *)
Lemma round_trip_cuts_a_b :
  (js "a" ≠ [] ∧ (chr "|" ∉ js "a") ∧ (chr ">" ∉ js "b")
   ∧ (chr ">" ∉ js "c"))
  ∧ ∀ host,
      encode host (Mention User (VString (js "a|b")) (VString (js "c"))) User
        ≫= (λ text, parse text User)
      = Ok (Mention User (VString (js "a")) (VString (js "b|c"))).
Proof.
  assert (js "a" ≠ [] ∧ (chr "|" ∉ js "a") ∧ (chr ">" ∉ js "b")
          ∧ (chr ">" ∉ js "c")) as H by (by compute_done).
  split; [exact H|]. intros host. destruct H as (H1 & H2 & H3 & H4).
  exact (proj1 (round_trip_cuts_id host User (js "a") (js "b") (js "c")
                  H1 H2 H3 H4)).
Defined.

(** ** Mentions: what [cast] tells apart *)

(** Two accepted texts give the same mention only if they are the same
    text. *)
Theorem parse_injective text1 text2 v m1 m2 :
  parse text1 v = Ok m1 → parse text2 v = Ok m2 →
  (m1 = m2 ↔ text1 = text2).
Proof.
  intros H1 H2. split; [|intros ->; congruence].
  intros ->.
  pose proof (parse_whole_text (λ _, Throw TypeError) _ _ _ H1) as E1.
  pose proof (parse_whole_text (λ _, Throw TypeError) _ _ _ H2) as E2.
  congruence.
Qed.

(** "<@U1|a|b>" and "<@U1|a>" give different mentions. *)
Lemma parse_injective_U1 :
  parse (js "<@U1|a|b>") User
  = Ok (Mention User (VString (js "U1")) (VString (js "a|b")))
  ∧ parse (js "<@U1|a>") User
    = Ok (Mention User (VString (js "U1")) (VString (js "a")))
  ∧ Mention User (VString (js "U1")) (VString (js "a|b"))
    ≠ Mention User (VString (js "U1")) (VString (js "a")).
Proof.
  assert (parse (js "<@U1|a|b>") User
          = Ok (Mention User (VString (js "U1")) (VString (js "a|b"))))
    as H1 by reflexivity.
  assert (parse (js "<@U1|a>") User
          = Ok (Mention User (VString (js "U1")) (VString (js "a"))))
    as H2 by reflexivity.
  split_and!; [exact H1|exact H2|].
  intros Heq. apply (parse_injective _ _ _ _ _ H1 H2) in Heq.
  discriminate Heq.
Defined.

(** No text is a user for [SlackUser.cast] and a channel for
    [SlackChannel.cast]: what one of them accepts the other refuses. *)
Theorem parse_one_variant text v v' m :
  parse text v = Ok m → v' ≠ v → rejects text v'.
Proof.
  destruct (parse_cases text v) as [(id & name & [-> _] & _)|[_ ->]];
    [|done].
  intros _ Hv. by apply rejects_other_sigil.
Qed.

(** "<#C1|general>" is a channel and no user. *)
Lemma parse_one_variant_C1 :
  parse (js "<#C1|general>") Channel
  = Ok (Mention Channel (VString (js "C1")) (VString (js "general")))
  ∧ rejects (js "<#C1|general>") User.
Proof.
  assert (parse (js "<#C1|general>") Channel
          = Ok (Mention Channel (VString (js "C1"))
                  (VString (js "general")))) as H by reflexivity.
  split; [exact H|].
  apply (parse_one_variant _ Channel User _ H). discriminate.
Defined.

(** Whatever the fields of a mention hold, what [toString] makes of it is
    never accepted by the [cast] of the other class. *)
Theorem encode_other_variant host v v' (id name : value) text :
  encode host (Mention v id name) v = Ok text → v' ≠ v → rejects text v'.
Proof.
  intros Htext Hv.
  assert (∃ tail, text = chr "<" :: sigil v :: tail) as [tail ->].
  { destruct v; unfold encode, SlackUser_toString, SlackChannel_toString
      in Htext.
    - rewrite (Mention_id User), (Mention_name User) in Htext.
      cbn [mbind result_bind mret result_ret] in Htext.
      destruct (ToString host id) as [i|]; [|done].
      cbn [mbind result_bind] in Htext.
      destruct (ToString host name) as [n|]; [|done].
      injection Htext as <-. by eexists.
    - rewrite (Mention_id Channel), (Mention_name Channel) in Htext.
      cbn [mbind result_bind mret result_ret] in Htext.
      destruct (ToString host id) as [i|]; [|done].
      cbn [mbind result_bind] in Htext.
      destruct (ToString host name) as [n|]; [|done].
      injection Htext as <-. by eexists. }
  by apply rejects_other_sigil.
Qed.

(** The user whose id is [undefined] and whose name is [null]. *)
Lemma encode_other_variant_undefined :
  rejects (js "<@undefined|null>") Channel
  ∧ ∀ host,
      encode host (Mention User VUndefined VNull) User
      = Ok (js "<@undefined|null>").
Proof.
  assert (∀ host,
            encode host (Mention User VUndefined VNull) User
            = Ok (js "<@undefined|null>")) as H by reflexivity.
  split; [|exact H].
  apply (encode_other_variant (λ _, Throw TypeError) User Channel _ _ _
           (H _)).
  discriminate.
Defined.

(** The shortest escaped mention has six code units: every shorter text,
    the empty one too, is refused. *)
Theorem rejects_short text v : length text < 6 → rejects text v.
Proof.
  intros Hlen. apply parse_not_escaped.
  intros [|i id] [|n name] (-> & ? & _ & ? & _); try done.
  cbn in Hlen. rewrite length_app in Hlen. cbn in Hlen.
  rewrite length_app in Hlen. cbn in Hlen. lia.
Qed.

(** The empty text is refused; "<@a|b>" has six code units. *)
Lemma rejects_empty_text :
  length ([] : jstring) < 6 ∧ rejects [] User ∧ rejects [] Channel
  ∧ parse (js "<@a|b>") User
    = Ok (Mention User (VString (js "a")) (VString (js "b"))).
Proof.
  assert (length ([] : jstring) < 6) as H by (cbn; lia).
  split_and!; [exact H|exact (rejects_short [] User H)
              |exact (rejects_short [] Channel H)|reflexivity].
Defined.

(** ** The context: what the constructor keeps, and what it does twice *)

(** A key the extension has no property under, other than [user],
    [channel] and [__proto__], reads on the context as [super] left it,
    when the extension puts no prototype in; so [undefined], [null], a
    boolean or a number as extension leave all of them. *)
Theorem context_keeps_super (this : gmap jstring value) ext k :
  keeps_prototype ext →
  own_enumerable ext !! k = None →
  k ≠ js "user" → k ≠ js "channel" → k ≠ proto_key →
  new_SlackCommandContext this ext ≫= (λ ctx, get ctx k)
  = get (instance this) k.
Proof.
  intros Hkeep Hk ? ? ?. rewrite context_field by done.
  by rewrite get_instance, assigned_kept.
Qed.

(** [cwd] as the constructor of [Context] set it, with [null] as extension. *)
Lemma context_keeps_cwd :
  (keeps_prototype VNull
   ∧ own_enumerable VNull !! js "cwd" = None
   ∧ js "cwd" ≠ js "user" ∧ js "cwd" ≠ js "channel"
   ∧ js "cwd" ≠ proto_key)
  ∧ new_SlackCommandContext {[ js "cwd" := VString (js "/tmp") ]} VNull
      ≫= (λ ctx, get ctx (js "cwd"))
    = Ok (VString (js "/tmp")).
Proof.
  assert (keeps_prototype VNull) as H0 by exact I.
  assert (own_enumerable VNull !! js "cwd" = None) as H1 by reflexivity.
  assert (js "cwd" ≠ js "user") as H2 by (vm_compute; discriminate).
  assert (js "cwd" ≠ js "channel") as H3 by (vm_compute; discriminate).
  assert (js "cwd" ≠ proto_key) as H4 by (vm_compute; discriminate).
  split; [by split_and!|].
  rewrite (context_keeps_super _ VNull (js "cwd") H0 H1 H2 H3 H4).
  vm_compute. reflexivity.
Defined.

(** With a prototype put in, a key neither the extension nor [super] has a
    property under is read from that prototype, and not as [super] left
    it. *)
Example context_reads_prototype :
  new_SlackCommandContext ∅
    (VObject ObjectClass
       {[ proto_key :=
            VObject ObjectClass {[ js "cwd" := VString (js "/tmp") ]} ]})
    ≫= (λ ctx, get ctx (js "cwd"))
  = Ok (VString (js "/tmp"))
  ∧ get (instance ∅) (js "cwd") = Ok VUndefined.
Proof. split; vm_compute; reflexivity. Qed.

(** Without a prototype put in, [Object.assign] leaves an instance of the
    class with all the properties [super] left, and with [__proto__]
    among them only if [super] left it. *)
Lemma Object_assign_keeps (this : gmap jstring value) ext :
  keeps_prototype ext →
  ∃ M : gmap jstring value,
    Object_assign (instance this) ext = instance M
    ∧ M ∪ this = M
    ∧ (this !! proto_key = None → M !! proto_key = None).
Proof.
  unfold keeps_prototype. intros Hkeep.
  rewrite Object_assign_eq by done. cbn zeta.
  cbn [instance inherits_proto_accessor own_props with_own].
  destruct (own_enumerable ext !! proto_key) as [p|] eqn:Hp.
  - rewrite Hkeep. case_bool_decide as Hthis.
    + eexists. split; [done|].
      split; [by rewrite <- (assoc_L (∪)), (idemp_L (∪))|].
      intros _. apply lookup_union_None. by rewrite lookup_delete_eq.
    + eexists. split; [done|].
      split; [by rewrite <- (assoc_L (∪)), (idemp_L (∪))|done].
  - eexists. split; [done|].
    split; [by rewrite <- (assoc_L (∪)), (idemp_L (∪))|].
    intros Hthis. by apply lookup_union_None.
Qed.

(** The constructor on an instance of the class, with nothing to copy. *)
Lemma constructor_instance (M : gmap jstring value) :
  SlackCommandContext_constructor (instance M) (VObject ObjectClass ∅) =
  Ok (instance
        (<[js "channel" :=
             Mention Channel (default VUndefined (M !! js "channel_id"))
               (default VUndefined (M !! js "channel_name"))]>
           (<[js "user" :=
                Mention User (default VUndefined (M !! js "user_id"))
                  (default VUndefined (M !! js "user_name"))]> M))).
Proof.
  rewrite SlackCommandContext_constructor_eq, Object_assign_nothing by done.
  cbn zeta. by rewrite !set_other by (done || by apply ordinary_set).
Qed.

(** Building a context from a context changes nothing, when the first
    extension puts no prototype in: with the context the constructor made
    as the extension of a second construction over the same [super], the
    result is that context again. *)
Theorem context_of_context (this : gmap jstring value) ext :
  keeps_prototype ext →
  new_SlackCommandContext this ext
    ≫= (λ ctx, new_SlackCommandContext this ctx)
  = new_SlackCommandContext this ext.
Proof.
  intros Hkeep.
  destruct (Object_assign_keeps this ext Hkeep) as (M & HM & Hthis & Hproto).
  assert (new_SlackCommandContext this ext
          = SlackCommandContext_constructor (instance M)
              (VObject ObjectClass ∅)) as ->.
  { unfold new_SlackCommandContext.
    by rewrite constructor_after_assign, HM. }
  rewrite constructor_instance. cbn [mbind result_bind].
  set (U := Mention User _ _). set (C := Mention Channel _ _).
  set (P := <[js "channel" := C]> (<[js "user" := U]> M)).
  assert (P ∪ this = P) as HP.
  { subst P. by rewrite <- !insert_union_l, Hthis. }
  assert (Object_assign (instance this) (instance P) = instance P) as HA.
  { rewrite Object_assign_eq by done. cbn zeta.
    cbn [instance own_enumerable inherits_proto_accessor own_props with_own].
    destruct (P !! proto_key) as [p|] eqn:Hp; [|by rewrite HP].
    case_bool_decide as Hnone; [|by rewrite HP].
    subst P. rewrite !lookup_insert_ne, (Hproto Hnone) in Hp by done.
    discriminate Hp. }
  unfold new_SlackCommandContext.
  rewrite constructor_after_assign, HA, constructor_instance by done.
  subst P. rewrite !lookup_insert_ne by done. fold U C.
  do 2 f_equal.
  apply map_eq. intros j.
  destruct (decide (j = js "channel")) as [-> | ?];
    [by rewrite !lookup_insert_eq|].
  rewrite !(lookup_insert_ne _ (js "channel")) by done.
  destruct (decide (j = js "user")) as [-> | ?];
    [by rewrite !lookup_insert_eq|].
  by rewrite !lookup_insert_ne by done.
Qed.

(** The context of user U9 "carol". *)
Lemma context_of_context_U9 :
  keeps_prototype
    (VObject ObjectClass
       {[ js "user_id" := VString (js "U9");
          js "user_name" := VString (js "carol") ]})
  ∧ new_SlackCommandContext ∅
      (VObject ObjectClass
         {[ js "user_id" := VString (js "U9");
            js "user_name" := VString (js "carol") ]})
      ≫= (λ ctx, new_SlackCommandContext ∅ ctx)
    = new_SlackCommandContext ∅
        (VObject ObjectClass
           {[ js "user_id" := VString (js "U9");
              js "user_name" := VString (js "carol") ]}).
Proof.
  assert (keeps_prototype
            (VObject ObjectClass
               {[ js "user_id" := VString (js "U9");
                  js "user_name" := VString (js "carol") ]})) as H
    by (vm_compute; exact I).
  split; [exact H|]. exact (context_of_context ∅ _ H).
Defined.

(** With a prototype put in, the second construction differs: what the
    first context read from the prototype is no own property of it, and
    [Object.assign] does not copy it. *)
Example context_of_context_prototype :
  let ext :=
    VObject ObjectClass
      {[ proto_key :=
           VObject ObjectClass {[ js "user_id" := VString (js "U9") ]} ]} in
  new_SlackCommandContext ∅ ext ≫= (λ ctx, get ctx (js "user_id"))
  = Ok (VString (js "U9"))
  ∧ (ctx ← new_SlackCommandContext ∅ ext;
     ctx ← new_SlackCommandContext ∅ ctx;
     get ctx (js "user_id"))
    = Ok VUndefined.
Proof. split; vm_compute; reflexivity. Qed.

(** ** The context: arrays and strings as extension *)

Lemma js_inj s1 s2 : js s1 = js s2 → s1 = s2.
Proof.
  unfold js. intros Heq.
  assert (Inj (=) (=) N_of_ascii) as Hinj.
  { intros a b Hab. by rewrite <- (ascii_N_embedding a), Hab,
      ascii_N_embedding. }
  apply (inj (fmap N_of_ascii)) in Heq.
  by rewrite <- (String.string_of_list_ascii_of_string s1), Heq,
    String.string_of_list_ascii_of_string.
Qed.

Lemma key_of_index_inj : Inj (=) (=) key_of_index.
Proof. intros i j Heq%js_inj. by apply (inj pretty) in Heq. Qed.

Lemma key_of_index_not_derived i :
  key_of_index i ≠ js "user" ∧ key_of_index i ≠ js "channel".
Proof.
  split.
  - change (js "user") with (chr "u" :: js "ser").
    apply key_of_index_ne. compute. by intros [? ?].
  - change (js "channel") with (chr "c" :: js "hannel").
    apply key_of_index_ne. compute. by intros [? ?].
Qed.

Lemma key_of_index_not_proto i : key_of_index i ≠ proto_key.
Proof.
  change proto_key with (chr "_" :: js "_proto__").
  apply key_of_index_ne, proto_key_digit.
Qed.

(** The properties [Object.assign] reads off a list of elements: element
    [i] under the key of [i]. *)
Lemma indexed_lookup {A} (f : A → value) (l : list A) : ∀ (g : nat → jstring) i,
  Inj (=) (=) g →
  (list_to_map (imap (λ j x, (g j, f x)) l) : gmap jstring value) !! g i
  = f <$> l !! i.
Proof.
  induction l as [|x l IH]; intros g i Hg; [done|].
  cbn [imap]. rewrite list_to_map_cons. destruct i as [|i].
  - by rewrite lookup_insert_eq.
  - rewrite lookup_insert_ne by (intros ?%(inj g); done).
    apply (IH (g ∘ S) i). intros a b ?%(inj g). by simplify_eq.
Qed.

(** An array as extension puts its elements on the context under their
    indices, and a string its code units, each as a string of its own. *)
Theorem context_of_indexed (this : gmap jstring value) :
  (∀ items i x,
     items !! i = Some x →
     new_SlackCommandContext this (VArray items)
       ≫= (λ ctx, get ctx (key_of_index i)) = Ok x)
  ∧ (∀ (s : jstring) i u,
       s !! i = Some u →
       new_SlackCommandContext this (VString s)
         ≫= (λ ctx, get ctx (key_of_index i)) = Ok (VString [u])).
Proof.
  split; intros l i x Hi;
    destruct (key_of_index_not_derived i);
    rewrite context_field by done;
    f_equal; apply assigned_own; try apply key_of_index_not_proto;
    cbn [own_enumerable].
  - etrans; [exact (indexed_lookup (λ x, x) l key_of_index i key_of_index_inj)|].
    by rewrite Hi.
  - etrans; [exact (indexed_lookup (λ c, VString [c]) l key_of_index i
                      key_of_index_inj)|].
    by rewrite Hi.
Qed.

(** The array of "x" and [null], and the string "hi". *)
Lemma context_of_indexed_examples :
  new_SlackCommandContext ∅ (VArray [VString (js "x"); VNull])
    ≫= (λ ctx, get ctx (js "1")) = Ok VNull
  ∧ new_SlackCommandContext ∅ (VString (js "hi"))
      ≫= (λ ctx, get ctx (js "0")) = Ok (VString (js "h")).
Proof.
  destruct (context_of_indexed ∅) as [Harray Hstring]. split.
  - exact (Harray [VString (js "x"); VNull] 1 VNull eq_refl).
  - exact (Hstring (js "hi") 0 (chr "h") eq_refl).
Defined.

(** ** The recognizer: what it looks at *)


(** The recognizer reads [text] and [attachments] and nothing else: two
    objects that agree on these two get the same answer, whatever their
    classes and their other properties. *)
Theorem recognizer_reads_two_properties (cls cls' : class_tag)
    (props props' : gmap jstring value) :
  cls ≠ FunctionClass → cls' ≠ FunctionClass →
  props !! js "text" = props' !! js "text" →
  props !! js "attachments" = props' !! js "attachments" →
  isSlackCommandResponse (VObject cls props)
  = isSlackCommandResponse (VObject cls' props').
Proof.
  intros Hcls Hcls' Htext Hatt. unfold isSlackCommandResponse, js_and.
  cbn [ToBoolean mret result_ret mbind result_bind].
  assert (strict_equal_string (typeof (VObject cls props)) (js "object")
          = VBoolean true) as -> by (by destruct cls).
  assert (strict_equal_string (typeof (VObject cls' props')) (js "object")
          = VBoolean true) as -> by (by destruct cls').
  unfold get. cbn [ToBoolean lookup_property mbind result_bind].
  by rewrite Htext, Hatt.
Qed.

(** A response with a [username] and the same response without. *)
Lemma recognizer_ignores_username :
  isSlackCommandResponse
    (VObject ObjectClass
       {[ js "text" := VString (js "hi");
          js "username" := VString (js "bot") ]})
  = isSlackCommandResponse
      (VObject SlackCommandContextClass {[ js "text" := VString (js "hi") ]}).
Proof.
  apply recognizer_reads_two_properties;
    [discriminate|discriminate|vm_compute; reflexivity..].
Defined.

(** ** The classes together *)

Lemma Mention_other v id name k :
  k ≠ js "id" → k ≠ js "name" → get (Mention v id name) k = Ok VUndefined.
Proof.
  intros ? ?. destruct v; unfold Mention, new_SlackUser, new_SlackChannel, get;
    cbn [lookup_property]; by rewrite lookup_insert_ne, lookup_singleton_ne.
Qed.

(** No mention is a response, so nothing [cast] returns is one. *)
Theorem mentions_not_recognized :
  (∀ v id name,
     isSlackCommandResponse (Mention v id name) = Ok (VBoolean false))
  ∧ (∀ text v m,
       parse text v = Ok m →
       isSlackCommandResponse m = Ok (VBoolean false)).
Proof.
  assert (∀ v id name,
            isSlackCommandResponse (Mention v id name) = Ok (VBoolean false))
    as Hmention.
  { intros v id name. unfold isSlackCommandResponse, js_and.
    assert (ToBoolean (Mention v id name) = true) as -> by (by destruct v).
    cbn [mret result_ret mbind result_bind].
    assert (strict_equal_string (typeof (Mention v id name)) (js "object")
            = VBoolean true) as -> by (by destruct v).
    cbn [ToBoolean]. by rewrite !Mention_other. }
  split; [done|]. intros text v m.
  destruct (parse_cases text v) as [(id & name & _ & ->)|[_ ->]]; [|done].
  intros [= <-]. apply Hmention.
Qed.

(** The user of "<@U1|alice>". *)
Lemma parsed_user_not_recognized :
  parse (js "<@U1|alice>") User
  = Ok (Mention User (VString (js "U1")) (VString (js "alice")))
  ∧ isSlackCommandResponse
      (Mention User (VString (js "U1")) (VString (js "alice")))
    = Ok (VBoolean false).
Proof.
  assert (parse (js "<@U1|alice>") User
          = Ok (Mention User (VString (js "U1")) (VString (js "alice"))))
    as H by reflexivity.
  split; [exact H|].
  exact (proj2 mentions_not_recognized _ _ _ H).
Defined.

(** The context is an object that is no function. *)
Lemma context_structured (this : gmap jstring value) ext ctx :
  new_SlackCommandContext this ext = Ok ctx → structured ctx.
Proof.
  rewrite new_SlackCommandContext_eq. intros [= <-].
  pose proof (ordinary_Object_assign (instance this) ext I) as HA.
  assert (structured (Object_assign (instance this) ext)) as Hs.
  { rewrite Object_assign_eq by done. cbn zeta.
    cbn [instance with_own]. by repeat case_match. }
  rewrite set_other by (by apply ordinary_set || apply channel_not_proto).
  rewrite set_other by (done || apply user_not_proto).
  by destruct (Object_assign (instance this) ext).
Qed.

(** A context is itself a value the recognizer is asked about: it answers
    with a boolean, [true] exactly when [text] reads on the context as a
    string or [attachments] as an array.  So a context built from a bag
    with the text of the command is recognized, and so is one built from
    a bag with an array of attachments, or from one whose [__proto__] is
    an object with a [text]; with neither property in the extension nor
    left by [super], and no prototype put in, it is not. *)
Theorem context_recognized_iff (this : gmap jstring value) ext :
  ∃ ctx text attachments b,
    new_SlackCommandContext this ext = Ok ctx
    ∧ get ctx (js "text") = Ok text
    ∧ get ctx (js "attachments") = Ok attachments
    ∧ isSlackCommandResponse ctx = Ok (VBoolean b)
    ∧ (b = true
       ↔ (∃ s, text = VString s) ∨ (∃ items, attachments = VArray items))
    ∧ (∀ s, own_enumerable ext !! js "text" = Some (VString s) → b = true)
    ∧ (∀ items,
         own_enumerable ext !! js "attachments" = Some (VArray items) →
         b = true)
    ∧ (∀ (props : gmap jstring value) s,
         this !! proto_key = None → this !! js "text" = None →
         own_enumerable ext !! js "text" = None →
         own_enumerable ext !! proto_key = Some (VObject ObjectClass props) →
         props !! js "text" = Some (VString s) →
         b = true)
    ∧ (keeps_prototype ext →
       own_enumerable ext !! js "text" = None →
       own_enumerable ext !! js "attachments" = None →
       this !! js "text" = None → this !! js "attachments" = None →
       b = false).
Proof.
  destruct (context_reads this ext) as (ctx & Hctx & _ & _ & Hget).
  pose proof (context_structured this ext ctx Hctx) as Hs.
  assert (ToBoolean ctx = true) as Hv
    by (by destruct ctx as [| | | | | | | |[] ?|? ?]).
  destruct (isSlackCommandResponse_truthy ctx Hv) as (b & Hb & Hiff).
  unfold ResponsePayload_shape in Hiff.
  rewrite !Hget in Hiff by done.
  exists ctx, (assigned this ext (js "text")),
    (assigned this ext (js "attachments")), b.
  assert (b = true
          ↔ (∃ s, assigned this ext (js "text") = VString s)
            ∨ (∃ items, assigned this ext (js "attachments") = VArray items))
    as Hiff'.
  { rewrite Hiff. split; [intros [_ [[s [= ?]]|[l [= ?]]]]; eauto|].
    intros [[s ->]|[l ->]]; split; eauto. }
  split; [exact Hctx|]. split; [by apply Hget|]. split; [by apply Hget|].
  split; [exact Hb|]. split; [exact Hiff'|]. split_and!.
  - intros s Hs'. apply Hiff'. left. exists s. by apply assigned_own.
  - intros items Hi. apply Hiff'. right. exists items. by apply assigned_own.
  - intros props s Hproto Hthis Hext Hp Htext. apply Hiff'. left. exists s.
    rewrite (assigned_replaced this ext (VObject ObjectClass props))
      by done.
    cbn [lookup_property]. by rewrite Htext.
  - intros Hkeep Ht Ha Ht' Ha'. apply not_true_is_false. rewrite Hiff'.
    rewrite !assigned_kept, Ht', Ha' by done.
    by intros [[? ?]|[? ?]].
Qed.

(** The bag with the text of the command, and the bag whose [__proto__]
    has it. *)
Example context_with_text_recognized :
  new_SlackCommandContext ∅
    (VObject ObjectClass {[ js "text" := VString (js "hi") ]})
    ≫= isSlackCommandResponse
  = Ok (VBoolean true)
  ∧ new_SlackCommandContext ∅
      (VObject ObjectClass
         {[ proto_key :=
              VObject ObjectClass {[ js "text" := VString (js "hi") ]} ]})
      ≫= isSlackCommandResponse
    = Ok (VBoolean true)
  ∧ new_SlackCommandContext ∅ (VObject ObjectClass ∅)
      ≫= isSlackCommandResponse
    = Ok (VBoolean false).
Proof. split_and!; vm_compute; reflexivity. Qed.

(** The render of a mention made from missing fields, for an extension and
    a [super] without [user_id].  With no prototype put in, [toString]
    writes the user of the context with "undefined" as id, before the
    name of the extension, or before "undefined" when there is no
    [user_name] either; [cast] reads "<@undefined|undefined>" as the
    user whose id and name are the string "undefined".  With an object
    under [__proto__], id and name are read from it. *)
Theorem user_of_missing_fields (host : value → result jstring)
    (this : gmap jstring value) (ext : value) :
  own_enumerable ext !! js "user_id" = None →
  this !! js "user_id" = None →
  (∀ name : jstring,
     keeps_prototype ext →
     own_enumerable ext !! js "user_name" = Some (VString name) →
     (ctx ← new_SlackCommandContext this ext;
      user ← get ctx (js "user");
      encode host user User)
     = Ok (js "<@undefined|" ++ name ++ js ">"))
  ∧ (keeps_prototype ext →
     own_enumerable ext !! js "user_name" = None →
     this !! js "user_name" = None →
     (ctx ← new_SlackCommandContext this ext;
      user ← get ctx (js "user");
      encode host user User)
     = Ok (js "<@undefined|undefined>"))
  ∧ parse (js "<@undefined|undefined>") User
    = Ok (Mention User (VString (js "undefined"))
            (VString (js "undefined")))
  ∧ (∀ (props : gmap jstring value) (id name : jstring),
       this !! proto_key = None →
       own_enumerable ext !! proto_key = Some (VObject ObjectClass props) →
       props !! js "user_id" = Some (VString id) →
       own_enumerable ext !! js "user_name" = Some (VString name) →
       (ctx ← new_SlackCommandContext this ext;
        user ← get ctx (js "user");
        encode host user User)
       = Ok (js "<@" ++ id ++ js "|" ++ name ++ js ">")).
Proof.
  intros Hext Hthis.
  destruct (context_reads this ext) as (ctx & Hctx & Huser & _).
  rewrite Hctx. cbn [mbind result_bind]. rewrite Huser.
  cbn [mbind result_bind]. split_and!.
  - intros name Hkeep Hname.
    rewrite (assigned_kept this ext (js "user_id")) by done.
    rewrite (assigned_own this ext (js "user_name") (VString name)) by done.
    rewrite Hthis. reflexivity.
  - intros Hkeep Hname Hname'.
    rewrite !assigned_kept by done. rewrite Hthis, Hname'. reflexivity.
  - reflexivity.
  - intros props id name Hproto Hp Hid Hname.
    rewrite (assigned_replaced this ext (VObject ObjectClass props)
               (js "user_id")) by done.
    rewrite (assigned_own this ext (js "user_name") (VString name)) by done.
    cbn [lookup_property]. rewrite Hid. reflexivity.
Qed.

(** A bag with the name of the user only, on an instance [super] left
    empty. *)
Lemma user_of_name_only :
  (own_enumerable
     (VObject ObjectClass {[ js "user_name" := VString (js "carol") ]})
     !! js "user_id" = None
   ∧ (∅ : gmap jstring value) !! js "user_id" = None
   ∧ keeps_prototype
       (VObject ObjectClass {[ js "user_name" := VString (js "carol") ]})
   ∧ own_enumerable
       (VObject ObjectClass {[ js "user_name" := VString (js "carol") ]})
       !! js "user_name" = Some (VString (js "carol")))
  ∧ ∀ host,
      (ctx ← new_SlackCommandContext ∅
               (VObject ObjectClass
                  {[ js "user_name" := VString (js "carol") ]});
       user ← get ctx (js "user");
       encode host user User)
      = Ok (js "<@undefined|carol>").
Proof.
  assert (own_enumerable
            (VObject ObjectClass {[ js "user_name" := VString (js "carol") ]})
            !! js "user_id" = None) as H1 by (vm_compute; reflexivity).
  assert ((∅ : gmap jstring value) !! js "user_id" = None) as H2
    by reflexivity.
  assert (keeps_prototype
            (VObject ObjectClass
               {[ js "user_name" := VString (js "carol") ]})) as H3
    by (vm_compute; exact I).
  assert (own_enumerable
            (VObject ObjectClass {[ js "user_name" := VString (js "carol") ]})
            !! js "user_name" = Some (VString (js "carol"))) as H4
    by (vm_compute; reflexivity).
  split; [by split_and!|]. intros host.
  exact (proj1 (user_of_missing_fields host ∅ _ H1 H2) (js "carol") H3 H4).
Defined.

(** No extension at all, and a bag whose [__proto__] holds the id. *)
Example user_of_no_extension host :
  (ctx ← new_SlackCommandContext ∅ VUndefined;
   user ← get ctx (js "user");
   encode host user User)
  = Ok (js "<@undefined|undefined>")
  ∧ (ctx ← new_SlackCommandContext ∅
             (VObject ObjectClass
                {[ proto_key :=
                     VObject ObjectClass
                       {[ js "user_id" := VString (js "U9");
                          js "user_name" := VString (js "carol") ]} ]});
     user ← get ctx (js "user");
     encode host user User)
    = Ok (js "<@U9|carol>").
Proof. split; vm_compute; reflexivity. Qed.

(** The constructor, [toString] and [cast] in a row: when the bag holds
    a non-empty id without "|" and a non-empty name without ">" for a
    variant, the mention the context holds for it is written as a text
    that [cast] reads back as that mention. *)
Theorem context_mention_round_trip (host : value → result jstring)
    (this bag : gmap jstring value) v (id name : jstring) :
  bag !! id_key v = Some (VString id) →
  bag !! name_key v = Some (VString name) →
  id ≠ [] → chr "|" ∉ id → name ≠ [] → chr ">" ∉ name →
  (ctx ← new_SlackCommandContext this (VObject ObjectClass bag);
   m ← get ctx (mention_key v);
   text ← encode host m v;
   parse text v)
  = Ok (Mention v (VString id) (VString name)).
Proof.
  intros Hid Hname ? ? ? ?.
  destruct (context_reads this (VObject ObjectClass bag))
    as (ctx & Hctx & Huser & Hchannel & _).
  rewrite Hctx. cbn [mbind result_bind].
  destruct v; cbn [mention_key id_key name_key] in *.
  - rewrite Huser. cbn [mbind result_bind].
    rewrite (assigned_own this (VObject ObjectClass bag) _ _ Hid),
      (assigned_own this (VObject ObjectClass bag) _ _ Hname) by done.
    by apply (round_trip_escaped host User).
  - rewrite Hchannel. cbn [mbind result_bind].
    rewrite (assigned_own this (VObject ObjectClass bag) _ _ Hid),
      (assigned_own this (VObject ObjectClass bag) _ _ Hname) by done.
    by apply (round_trip_escaped host Channel).
Qed.

(** The channel C2 "eng". *)
Lemma context_channel_round_trip :
  (js "C2" ≠ [] ∧ (chr "|" ∉ js "C2") ∧ js "eng" ≠ []
   ∧ (chr ">" ∉ js "eng"))
  ∧ ∀ host,
      (ctx ← new_SlackCommandContext ∅
               (VObject ObjectClass
                  {[ js "channel_id" := VString (js "C2");
                     js "channel_name" := VString (js "eng") ]});
       m ← get ctx (js "channel");
       text ← encode host m Channel;
       parse text Channel)
      = Ok (Mention Channel (VString (js "C2")) (VString (js "eng"))).
Proof.
  assert (js "C2" ≠ [] ∧ (chr "|" ∉ js "C2") ∧ js "eng" ≠ []
          ∧ (chr ">" ∉ js "eng")) as H by (by compute_done).
  split; [exact H|]. intros host. destruct H as (H1 & H2 & H3 & H4).
  refine (context_mention_round_trip host ∅ _ Channel (js "C2") (js "eng")
            _ _ H1 H2 H3 H4); vm_compute; reflexivity.
Defined.
